(** * jimgw: the [Jim] master class and its transform pipeline

    A shallow embedding of [src/jimgw/jim.py].  Python dictionaries are
    insertion-ordered association lists, exceptions are the left summand
    of a small error monad, and the collaborators that live outside the
    file (prior, likelihood, transforms, optimizer) are records of
    closures or section variables. *)

From Stdlib Require Import String List ZArith Lia Sorted.
Import ListNotations.
Local Open Scope string_scope.
Local Open Scope list_scope.

(** ** Exceptions and the error monad *)

Module Py.

Inductive exn : Type :=
| MissingParameterError (name : string)
| KeyError (key : string)
| IndexError
| Raised (what : string).

Definition result (A : Type) : Type := (exn + A)%type.

Definition ret {A : Type} (a : A) : result A := inr a.

Definition raise {A : Type} (e : exn) : result A := inl e.

Definition bind {A B : Type} (m : result A) (k : A -> result B) : result B :=
  match m with
  | inl e => inl e
  | inr a => k a
  end.

(** [f] applied to every element in order, stopping at the first
    exception: a Python loop or comprehension whose body may raise. *)
Fixpoint mapM {A B : Type} (f : A -> result B) (l : list A) : result (list B) :=
  match l with
  | [] => ret []
  | a :: l' =>
      bind (f a) (fun b => bind (mapM f l') (fun bs => ret (b :: bs)))
  end.

End Py.

Import Py.

Declare Scope py_scope.
Delimit Scope py_scope with py.
Notation "x <- m ;; k" := (bind m (fun x => k))
  (at level 61, m at next level, right associativity) : py_scope.
Notation "' p <- m ;; k" := (bind m (fun x => let p := x in k))
  (at level 61, p pattern, m at next level, right associativity) : py_scope.
Local Open Scope py_scope.

(** ** Python [dict] with string keys *)

Module Dict.
Section Dict.

Context {A : Type}.

Definition t : Type := list (string * A).

(** [d.get(k)] / [k in d] *)
Fixpoint get (k : string) (d : t) : option A :=
  match d with
  | [] => None
  | (k', v) :: d' => if String.eqb k k' then Some v else get k d'
  end.

(** [d[k] = v]: an existing key keeps its place, a new one goes last. *)
Fixpoint set (k : string) (v : A) (d : t) : t :=
  match d with
  | [] => [(k, v)]
  | (k', v') :: d' =>
      if String.eqb k k' then (k', v) :: d' else (k', v') :: set k v d'
  end.

(** [d.pop(k)] for a key known or not; the value is dropped. *)
Fixpoint pop (k : string) (d : t) : t :=
  match d with
  | [] => []
  | (k', v') :: d' =>
      if String.eqb k k' then d' else (k', v') :: pop k d'
  end.

(** [dict(pairs)]: later pairs overwrite earlier ones. *)
Definition of_pairs (ps : list (string * A)) : t :=
  fold_left (fun d p => set (fst p) (snd p) d) ps [].

Definition keys (d : t) : list string := map fst d.

Definition values (d : t) : list A := map snd d.

Definition mem (k : string) (d : t) : bool :=
  match get k d with Some _ => true | None => false end.

End Dict.
Arguments t : clear implicits.
End Dict.

(** ** Dictionaries that cross [jax.vmap]

    jax takes a dictionary apart by its sorted keys and puts it together
    again in that order: the dictionary a mapped function receives and
    the one that comes back list their keys sorted, whatever the
    insertion order was. *)

Section Pytree.

Context {A : Type}.

Fixpoint insert_sorted (k : string) (v : A) (d : Dict.t A) : Dict.t A :=
  match d with
  | [] => [(k, v)]
  | (k', v') :: d' =>
      if String.leb k k' then (k, v) :: d
      else (k', v') :: insert_sorted k v d'
  end.

Definition tree_rebuild (d : Dict.t A) : Dict.t A :=
  fold_right (fun p sorted => insert_sorted (fst p) (snd p) sorted) [] d.

(** The keys of a dictionary are in sorted order. *)
Definition keys_sorted (d : Dict.t A) : Prop :=
  Sorted (fun k1 k2 => String.leb k1 k2 = true) (Dict.keys d).

End Pytree.

(** ** Scalars *)

(** The three operations jim.py performs on log-densities: the literal
    [0.0], [+] and unary [-]. *)
Class Scalar (F : Type) : Type := {
  fzero : F;
  fadd : F -> F -> F;
  fneg : F -> F
}.

(** ** The Jim class *)

Section Jim.

(** Parameter values [V] and log-density scalars [F].  Nothing is
    assumed of the floating-point arithmetic: sums are kept in the
    order the code performs them. *)
Context {V F : Type} `{Scalar F}.

(** The [data] argument of the likelihood is a dictionary or, as
    [maximize_likelihood] passes it, [None]. *)
Context {Data : Type}.

Definition NamedVector : Type := Dict.t V.

(** *** Interfaces of the collaborators imported by jim.py *)

(** [jimgw.transforms.NtoMTransform]: jim.py calls [forward] only, which
    returns the new dictionary and no Jacobian. *)
Record NtoMTransform : Type := {
  ntom_name_mapping : list string * list string;
  ntom_forward : NamedVector -> result NamedVector
}.

(** [jimgw.transforms.BijectiveTransform]: [transform] and [inverse]
    return a dictionary and a log-Jacobian-determinant, [forward] and
    [backward] the dictionary alone. *)
Record BijectiveTransform : Type := {
  name_mapping : list string * list string;
  propagate_name : list string -> list string;
  transform : NamedVector -> result (NamedVector * F);
  forward : NamedVector -> result NamedVector;
  inverse : NamedVector -> result (NamedVector * F);
  backward : NamedVector -> result NamedVector
}.

(** [jimgw.prior.Prior].  [sample key n] is given as the [n] per-walker
    dictionaries that [jax.vmap] slices the returned dictionary of
    arrays into. *)
Context {Key : Type}.
Variable PRNGKey : Z -> Key.

Record Prior : Type := {
  prior_parameter_names : list string;
  n_dim : nat;
  log_prob : NamedVector -> result F;
  sample : Key -> nat -> list NamedVector
}.

(** [jimgw.base.LikelihoodBase] *)
Record LikelihoodBase : Type := {
  evaluate : NamedVector -> option Data -> result F
}.

(** The attributes of a [Jim] object; the flowMC sampler it also holds
    is not modelled. *)
Record Jim : Type := {
  likelihood : LikelihoodBase;
  prior : Prior;
  sample_transforms : list BijectiveTransform;
  likelihood_transforms : list NtoMTransform;
  parameter_names : list string
}.

(** *** [Jim.__init__] (lines 36-50) *)

(** [for transform in sample_transforms:
       self.parameter_names = transform.propagate_name(self.parameter_names)] *)
Fixpoint propagate_loop (ts : list BijectiveTransform) (names : list string)
  : list string :=
  match ts with
  | [] => names
  | t :: ts' => propagate_loop ts' (propagate_name t names)
  end.

Definition Jim_init (lik : LikelihoodBase) (pr : Prior)
    (sts : list BijectiveTransform) (lts : list NtoMTransform) : Jim :=
  let names := prior_parameter_names pr in
  let names :=
    if Nat.eqb (length sts) 0 then names else propagate_loop sts names in
  {| likelihood := lik;
     prior := pr;
     sample_transforms := sts;
     likelihood_transforms := lts;
     parameter_names := names |}.

(** *** [Jim.add_name] (line 92): [dict(zip(self.parameter_names, x))] *)

Definition add_name {A : Type} (self : Jim) (x : list A) : Dict.t A :=
  Dict.of_pairs (combine (parameter_names self) x).

(** *** [Jim.posterior] (lines 94-105) *)

(** Lines 97-99: the sample transforms are visited in list order, each
    one's [inverse] is applied and its Jacobian added to the running
    total. *)
Fixpoint inverse_loop (ts : list BijectiveTransform)
    (named_params : NamedVector) (transform_jacobian : F)
  : result (NamedVector * F) :=
  match ts with
  | [] => ret (named_params, transform_jacobian)
  | t :: ts' =>
      '(named_params', jacobian) <- inverse t named_params ;;
      inverse_loop ts' named_params' (fadd transform_jacobian jacobian)
  end.

(** Lines 101-102 *)
Fixpoint forward_loop (ts : list NtoMTransform) (named_params : NamedVector)
  : result NamedVector :=
  match ts with
  | [] => ret named_params
  | t :: ts' =>
      named_params' <- ntom_forward t named_params ;;
      forward_loop ts' named_params'
  end.

Definition posterior (self : Jim) (params : list V) (data : option Data)
  : result F :=
  let named_params := add_name self params in
  '(named_params, transform_jacobian) <-
     inverse_loop (sample_transforms self) named_params fzero ;;
  lp <- log_prob (prior self) named_params ;;
  let prior_ := fadd lp transform_jacobian in
  named_params <- forward_loop (likelihood_transforms self) named_params ;;
  l <- evaluate (likelihood self) named_params data ;;
  ret (fadd l prior_).

(** *** [Jim.sample], the initial guess (lines 109-112)

    Each sample transform's [forward] is mapped over all walkers by
    [jax.vmap], the transforms being visited in list order; the values
    of the final dictionaries are the rows handed to the sampler. *)

(** Line 111 for one walker: [forward] receives the walker's dictionary
    as jax rebuilt it, and what it returns is rebuilt in turn. *)
Definition vmapped_forward (t : BijectiveTransform) (walker : NamedVector)
  : result NamedVector :=
  walker' <- forward t (tree_rebuild walker) ;;
  ret (tree_rebuild walker').

Fixpoint sample_forward_loop (ts : list BijectiveTransform)
    (initial_guess_named : list NamedVector) : result (list NamedVector) :=
  match ts with
  | [] => ret initial_guess_named
  | t :: ts' =>
      initial_guess_named' <- mapM (vmapped_forward t) initial_guess_named ;;
      sample_forward_loop ts' initial_guess_named'
  end.

Definition sample_initial_guess (self : Jim) (key : Key) (n_chains : nat)
  : result (list (list V)) :=
  let initial_guess_named := sample (prior self) key n_chains in
  initial_guess_named <-
    sample_forward_loop (sample_transforms self) initial_guess_named ;;
  ret (map Dict.values initial_guess_named).

(** *** [Jim.get_samples] (lines 244-264)

    [chains] is the sampler's state after
    [reshape(-1, len(self.parameter_names))], one row per sample. *)

(** Lines 248-249 and 254-255 *)
Fixpoint backward_loop (ts : list BijectiveTransform)
    (named_sample : NamedVector) : result NamedVector :=
  match ts with
  | [] => ret named_sample
  | t :: ts' =>
      named_sample' <- backward t named_sample ;;
      backward_loop ts' named_sample'
  end.

(** Lines 250-251: [transformed_chain[key] = [value]] *)
Fixpoint chain_start (items : list (string * V))
    (transformed_chain : Dict.t (list V)) : Dict.t (list V) :=
  match items with
  | [] => transformed_chain
  | (key, value) :: items' =>
      chain_start items' (Dict.set key [value] transformed_chain)
  end.

(** Lines 256-257: [transformed_chain[key].append(value)] *)
Fixpoint chain_append (items : list (string * V))
    (transformed_chain : Dict.t (list V)) : result (Dict.t (list V)) :=
  match items with
  | [] => ret transformed_chain
  | (key, value) :: items' =>
      match Dict.get key transformed_chain with
      | None => raise (KeyError key)
      | Some l =>
          chain_append items' (Dict.set key (l ++ [value]) transformed_chain)
      end
  end.

(** Lines 252-257 *)
Fixpoint samples_loop (self : Jim) (samples : list (list V))
    (transformed_chain : Dict.t (list V)) : result (Dict.t (list V)) :=
  match samples with
  | [] => ret transformed_chain
  | sample :: samples' =>
      named_sample <-
        backward_loop (sample_transforms self) (add_name self sample) ;;
      transformed_chain' <- chain_append named_sample transformed_chain ;;
      samples_loop self samples' transformed_chain'
  end.

Definition get_samples (self : Jim) (chains : list (list V))
  : result (Dict.t (list V)) :=
  match sample_transforms self with
  | _ :: _ =>
      match chains with
      | [] => raise IndexError
      | chains_0 :: chains_rest =>
          named_sample <-
            backward_loop (sample_transforms self) (add_name self chains_0) ;;
          samples_loop self chains_rest (chain_start named_sample [])
      end
  | [] => ret (add_name self chains)
  end.

(** *** [Jim.maximize_likelihood] (lines 122-138) *)

(** [flowMC.utils.EvolutionaryOptimizer]: construction, [optimize]
    (which updates the optimizer) and [get_result]. *)
Context {Bounds Optimizer Fit Rest : Type}.
Variable EvolutionaryOptimizer : nat -> Optimizer.
Variable optimize :
  Optimizer -> (list (list V) -> result (list F)) -> Bounds -> nat ->
  result Optimizer.
Variable get_result : Optimizer -> Fit * Rest.

(** Iterating a dictionary yields its keys; a key that ends up where a
    parameter value is expected is a value of the untyped program. *)
Variable str_value : string -> V.

(** Lines 126-127 *)
Definition negative_posterior (self : Jim) (x : list V) : result F :=
  p <- posterior self x None ;;
  ret (fneg p).

(** Line 129: [jax.jit(jax.vmap(negative_posterior))], one call per row. *)
Definition vmap {X Y : Type} (f : X -> result Y) (batch : list X)
  : result (list Y) :=
  mapM f batch.

Definition maximize_likelihood (self : Jim) (bounds : Bounds)
    (set_nwalkers : nat) (n_loops : nat) (seed : Z) : result Fit :=
  let key := PRNGKey seed in
  let initial_guess := sample (prior self) key set_nwalkers in
  let negative_posterior_v := vmap (negative_posterior self) in
  (* line 131: each walker is a dictionary, rebuilt by jax, which [zip]
     iterates by key *)
  _ <- negative_posterior_v
         (map (fun x => map str_value (Dict.keys (tree_rebuild x)))
              initial_guess) ;;
  let optimizer := EvolutionaryOptimizer (n_dim (prior self)) in
  optimizer <- optimize optimizer negative_posterior_v bounds n_loops ;;
  let best_fit := fst (get_result optimizer) in
  ret best_fit.

End Jim.

Arguments NamedVector : clear implicits.
Arguments NtoMTransform : clear implicits.
Arguments BijectiveTransform : clear implicits.
Arguments Prior : clear implicits.
Arguments LikelihoodBase : clear implicits.
Arguments Jim : clear implicits.

(** ** The transform library

    [jimgw/transforms.py] is imported by jim.py and exercised by
    [test/unit/test_transform.py] but is not among the sources; what
    follows is built from the specification's contract for it. *)

(** Arithmetic on parameter values used by the elementary transforms. *)
Class Values (V F : Type) : Type := {
  vadd : V -> V -> V;
  vsub : V -> V -> V;
  vmul : V -> V -> V;
  vdiv : V -> V -> V;
  vlog_abs : V -> F
}.

Section Transforms.

Context {V F : Type} `{Scalar F}.

(** Modelled from the spec: the rank-wise renaming behind
    [Transform.propagate_name] (section 4.1, name propagation).  A name
    equal to the k-th input name becomes the k-th output name; any
    other name is left alone. *)
Fixpoint rename (ins outs : list string) (n : string) : string :=
  match ins, outs with
  | i :: ins', o :: outs' => if String.eqb n i then o else rename ins' outs' n
  | _, _ => n
  end.

(** Modelled from the spec: [Transform.propagate_name], missing from the
    sources.  Every position of the list is renamed where it stands. *)
Definition propagate_name_of (nm : list string * list string)
    (x : list string) : list string :=
  map (rename (fst nm) (snd nm)) x.

(** Modelled from the spec: reading the declared names out of a
    NamedVector (section 4.1, failure conditions); the first absent name
    is reported. *)
Fixpoint gather (names : list string) (x : NamedVector V) : result (list V) :=
  match names with
  | [] => ret []
  | n :: names' =>
      match Dict.get n x with
      | None => raise (MissingParameterError n)
      | Some v => vs <- gather names' x ;; ret (v :: vs)
      end
  end.

(** Modelled from the spec: one direction of a transform (section 4.1).
    The consumed names are removed, the produced names are stored, and
    every other entry passes through.  The produced entries come after
    the pass-through ones, as
    [TestSpinTransform.test_forward_backward_consistency] observes. *)
Definition apply_func (consumed produced : list string)
    (func : list V -> list V * F) (x : NamedVector V)
  : result (NamedVector V * F) :=
  vals <- gather consumed x ;;
  let '(outs, log_det) := func vals in
  let x_copy := fold_left (fun d k => Dict.pop k d) consumed x in
  let y :=
    fold_left (fun d p => Dict.set (fst p) (snd p) d)
              (combine produced outs) x_copy in
  ret (y, log_det).

(** Modelled from the spec: the dictionary-only variant of a direction
    ([forward] and [backward] as jim.py calls them). *)
Definition drop_jacobian (f : NamedVector V -> result (NamedVector V * F))
    (x : NamedVector V) : result (NamedVector V) :=
  '(y, _) <- f x ;; ret y.

(** Modelled from the spec: a bijective transform given by its name
    mapping and the two maps on the declared coordinates. *)
Definition make_bijective (nm : list string * list string)
    (transform_func inverse_transform_func : list V -> list V * F)
  : BijectiveTransform V F :=
  {| name_mapping := nm;
     propagate_name := propagate_name_of nm;
     transform := apply_func (fst nm) (snd nm) transform_func;
     forward := drop_jacobian (apply_func (fst nm) (snd nm) transform_func);
     inverse := apply_func (snd nm) (fst nm) inverse_transform_func;
     backward :=
       drop_jacobian (apply_func (snd nm) (fst nm) inverse_transform_func) |}.

(** Modelled from the spec: [reverse_bijective_transform] (section 4.3),
    an adapter that swaps the roles of the two directions and of the
    two name lists. *)
Definition reverse_bijective_transform (t : BijectiveTransform V F)
  : BijectiveTransform V F :=
  let nm := (snd (name_mapping t), fst (name_mapping t)) in
  {| name_mapping := nm;
     propagate_name := propagate_name_of nm;
     transform := inverse t;
     forward := backward t;
     inverse := transform t;
     backward := forward t |}.

Context `{Values V F}.

(** Modelled from the spec: a map applied to each declared coordinate
    (section 4.2); the log-Jacobian-determinant is the sum of the
    coordinates' log-derivatives, 2 * log(scale) for the two names of
    [test_scale_transform]. *)
Definition elementwise (f : V -> V) (log_deriv : V -> F) (vals : list V)
  : list V * F :=
  (map f vals, fold_left (fun acc v => fadd acc (log_deriv v)) vals fzero).

(** Modelled from the spec: [OffsetTransform] (section 4.2), y = x + c
    with log-derivative 0. *)
Definition OffsetTransform (nm : list string * list string) (offset : V)
  : BijectiveTransform V F :=
  make_bijective nm
    (elementwise (fun x => vadd x offset) (fun _ => fzero))
    (elementwise (fun y => vsub y offset) (fun _ => fzero)).

(** Modelled from the spec: [ScaleTransform] (section 4.2), y = s * x
    with log-derivative log|s|. *)
Definition ScaleTransform (nm : list string * list string) (scale : V)
  : BijectiveTransform V F :=
  make_bijective nm
    (elementwise (fun x => vmul x scale) (fun _ => vlog_abs scale))
    (elementwise (fun y => vdiv y scale) (fun _ => fneg (vlog_abs scale))).

End Transforms.

(** ** Vocabulary of the statements *)

Section Vocabulary.

Context {V F : Type}.

(** The run of the loop of lines 97-99 with the Jacobians kept apart:
    the final dictionary and, in the order they were produced, the
    log-Jacobian-determinant each [inverse] reported. *)
Fixpoint inverse_trace (ts : list (BijectiveTransform V F))
    (named_params : NamedVector V) : result (NamedVector V * list F) :=
  match ts with
  | [] => ret (named_params, [])
  | t :: ts' =>
      '(named_params', jacobian) <- inverse t named_params ;;
      '(final, jacobians) <- inverse_trace ts' named_params' ;;
      ret (final, jacobian :: jacobians)
  end.

(** Rank of the first occurrence of a name in a list of names. *)
Fixpoint index_of (n : string) (l : list string) : option nat :=
  match l with
  | [] => None
  | m :: l' =>
      if String.eqb n m then Some 0
      else match index_of n l' with
           | Some k => Some (S k)
           | None => None
           end
  end.

(** A Jim whose likelihood transforms have been folded into its
    likelihood: the likelihood first runs them, then evaluates. *)
Definition absorb_likelihood_transforms {Data Key : Type}
    (self : Jim V F Data Key) : Jim V F Data Key :=
  {| likelihood :=
       {| evaluate := fun named data =>
            named' <- forward_loop (likelihood_transforms self) named ;;
            evaluate (likelihood self) named' data |};
     prior := prior self;
     sample_transforms := sample_transforms self;
     likelihood_transforms := [];
     parameter_names := parameter_names self |}.

(** One walker taken through the mapped [forward] of each sample
    transform, in list order. *)
Fixpoint forward_seq (ts : list (BijectiveTransform V F))
    (walker : NamedVector V) : result (NamedVector V) :=
  match ts with
  | [] => ret walker
  | t :: ts' =>
      walker' <- vmapped_forward t walker ;; forward_seq ts' walker'
  end.

End Vocabulary.

Section Columns.

Context {A : Type}.

(** The values a key has in a list of dictionaries, in the order of the
    list. *)
Definition column (k : string) (ds : list (Dict.t A)) : list A :=
  flat_map (fun d => match Dict.get k d with
                     | Some v => [v]
                     | None => []
                     end) ds.

(** The dictionary that has, for each of the keys, its column. *)
Definition columns (ks : list string) (ds : list (Dict.t A))
  : Dict.t (list A) :=
  map (fun k => (k, column k ds)) ks.

End Columns.

(** ** An exact instance

    Integer parameter values and integer log-densities, so that the
    definitions above can be run.  Logarithms are taken in base two and
    quotients are integer quotients; the examples below only scale by
    powers of two and only divide multiples. *)

Module Exact.

#[export] Instance Scalar_Z : Scalar Z :=
  {| fzero := 0%Z; fadd := Z.add; fneg := Z.opp |}.

#[export] Instance Values_Z : Values Z Z :=
  {| vadd := Z.add; vsub := Z.sub; vmul := Z.mul; vdiv := Z.div;
     vlog_abs := fun s => Z.log2 (Z.abs s) |}.

(** A prior over the single parameter [x] with log-density [-100 * x];
    it draws x = 1 for every walker. *)
Definition prior_x : Prior Z Z Z :=
  {| prior_parameter_names := ["x"];
     n_dim := 1;
     log_prob := fun named =>
       match Dict.get "x" named with
       | Some x => ret (-100 * x)%Z
       | None => raise (KeyError "x")
       end;
     sample := fun _ n => repeat [("x", 1%Z)] n |}.

(** A likelihood that returns the value of [x]. *)
Definition likelihood_x : LikelihoodBase Z Z unit :=
  {| evaluate := fun named _ =>
       match Dict.get "x" named with
       | Some x => ret x
       | None => raise (KeyError "x")
       end |}.

(** x -> y = x + 1 -> z = 2 * y *)
Definition offset_x_y : BijectiveTransform Z Z :=
  OffsetTransform (["x"], ["y"]) 1%Z.

Definition scale_y_z : BijectiveTransform Z Z :=
  ScaleTransform (["y"], ["z"]) 2%Z.

Definition jim_chain : Jim Z Z unit Z :=
  Jim_init likelihood_x prior_x [offset_x_y; scale_y_z] [].

(** x -> 2 * x -> 2 * x + 2, the name kept throughout *)
Definition scale_x : BijectiveTransform Z Z :=
  ScaleTransform (["x"], ["x"]) 2%Z.

Definition offset_x : BijectiveTransform Z Z :=
  OffsetTransform (["x"], ["x"]) 2%Z.

Definition jim_same : Jim Z Z unit Z :=
  Jim_init likelihood_x prior_x [scale_x; offset_x] [].

(** The transform and data of [test_reverse_bijective_transform], with
    the scale 3.0 replaced by 2. *)
Definition scale_ab : BijectiveTransform Z Z :=
  ScaleTransform (["a"; "b"], ["a_scaled"; "b_scaled"]) 2%Z.

Definition input_data : NamedVector Z := [("a", 2%Z); ("b", 4%Z)].

(** A likelihood transform that doubles [x], and a Jim that uses it. *)
Definition double_x : NtoMTransform Z :=
  {| ntom_name_mapping := (["x"], ["x"]);
     ntom_forward := forward scale_x |}.

Definition jim_lik : Jim Z Z unit Z :=
  Jim_init likelihood_x prior_x [scale_x; offset_x] [double_x].

(** Two parameters, the second sampled with an offset. *)
Definition prior_xw : Prior Z Z Z :=
  {| prior_parameter_names := ["x"; "w"];
     n_dim := 2;
     log_prob := log_prob prior_x;
     sample := fun _ n => repeat [("x", 1%Z); ("w", 0%Z)] n |}.

Definition offset_w : BijectiveTransform Z Z :=
  OffsetTransform (["w"], ["w_offset"]) 5%Z.

Definition jim_two : Jim Z Z unit Z :=
  Jim_init likelihood_x prior_xw [offset_w] [].



(** A transform whose way back names its result after the sign of [s]:
    [pos] for a value that is not negative, [neg] otherwise. *)
Definition sign_backward (d : NamedVector Z) : result (NamedVector Z) :=
  match Dict.get "s" d with
  | Some v =>
      if (v <? 0)%Z then ret [("neg", (- v)%Z)] else ret [("pos", v)]
  | None => raise (MissingParameterError "s")
  end.

Definition sign_split : BijectiveTransform Z Z :=
  {| name_mapping := (["pos"], ["s"]);
     propagate_name := propagate_name_of (["pos"], ["s"]);
     transform := apply_func ["pos"] ["s"] (fun vals => (vals, 0%Z));
     forward :=
       drop_jacobian (apply_func ["pos"] ["s"] (fun vals => (vals, 0%Z)));
     inverse := fun d => d' <- sign_backward d ;; ret (d', 0%Z);
     backward := sign_backward |}.

Definition prior_pos : Prior Z Z Z :=
  {| prior_parameter_names := ["pos"];
     n_dim := 1;
     log_prob := fun _ => ret 0%Z;
     sample := fun _ n => repeat [("pos", 1%Z)] n |}.

Definition jim_sign : Jim Z Z unit Z :=
  Jim_init likelihood_x prior_pos [sign_split] [].

End Exact.

(** ** An instance with numbers and strings

    Python values that are numbers or strings, for the calls in which a
    dictionary key ends up where a number is expected.  Arithmetic on a
    string raises [TypeError]. *)

Module Untyped.

Import Exact.

Inductive pyval : Type :=
| Num (z : Z)
| Str (s : string).

(** A prior over the single parameter [x] with log-density [-100 * x];
    it draws x = 1 for every walker. *)
Definition prior_num : Prior pyval Z Z :=
  {| prior_parameter_names := ["x"];
     n_dim := 1;
     log_prob := fun named =>
       match Dict.get "x" named with
       | Some (Num x) => ret (-100 * x)%Z
       | Some (Str _) => raise (Raised "TypeError")
       | None => raise (KeyError "x")
       end;
     sample := fun _ n => repeat [("x", Num 1%Z)] n |}.

(** A likelihood that returns the value of [x]. *)
Definition likelihood_num : LikelihoodBase pyval Z unit :=
  {| evaluate := fun named _ =>
       match Dict.get "x" named with
       | Some (Num x) => ret x
       | Some (Str _) => raise (Raised "TypeError")
       | None => raise (KeyError "x")
       end |}.

Definition jim_num : Jim pyval Z unit Z :=
  Jim_init likelihood_num prior_num [] [].

End Untyped.

(** ** The error monad *)

Lemma bind_ret_l {A B : Type} (a : A) (k : A -> result B) :
  bind (ret a) k = k a.
Proof. reflexivity. Qed.

Lemma bind_assoc {A B C : Type} (m : result A) (k : A -> result B)
    (h : B -> result C) :
  bind (bind m k) h = bind m (fun a => bind (k a) h).
Proof. destruct m; reflexivity. Qed.

(** ** Dictionaries *)

Section DictFacts.

Context {A : Type}.

Lemma get_set (k k' : string) (v : A) (d : Dict.t A) :
  Dict.get k (Dict.set k' v d) =
  if String.eqb k k' then Some v else Dict.get k d.
Proof.
  induction d as [| [k0 v0] d IH]; cbn.
  - reflexivity.
  - destruct (String.eqb_spec k' k0) as [-> | Hne]; cbn.
    + destruct (String.eqb k k0); reflexivity.
    + rewrite IH. destruct (String.eqb_spec k k0) as [-> | Hne'].
      * destruct (String.eqb_spec k0 k') as [<- | _];
          [exfalso; apply Hne; reflexivity | reflexivity].
      * reflexivity.
Qed.

(** [dict(pairs)] has a key only if some pair brings it. *)
Lemma get_of_pairs_absent (k : string) (ps : list (string * A)) :
  ~ In k (map fst ps) -> Dict.get k (Dict.of_pairs ps) = None.
Proof.
  unfold Dict.of_pairs.
  assert (Hgen : forall d, Dict.get k d = None -> ~ In k (map fst ps) ->
            Dict.get k (fold_left (fun d p => Dict.set (fst p) (snd p) d) ps d)
            = None).
  { induction ps as [| [k0 v0] ps IH]; intros d Hd Hn; cbn.
    - exact Hd.
    - apply IH.
      + rewrite get_set. destruct (String.eqb_spec k k0) as [-> | _].
        * exfalso. apply Hn. left. reflexivity.
        * exact Hd.
      + intros Hin. apply Hn. right. exact Hin. }
  intros Hn. apply Hgen; [reflexivity | exact Hn].
Qed.

End DictFacts.

(** ** Facts about the loops of jim.py *)

Section JimFacts.

Context {V F : Type} `{Scalar F} {Data Key : Type}.

Implicit Types (self : Jim V F Data Key) (t : BijectiveTransform V F).
Implicit Types (ts pre post : list (BijectiveTransform V F)).
Implicit Types (x y named : NamedVector V) (acc jac : F).

Lemma propagate_loop_fold ts (names : list string) :
  propagate_loop ts names =
  fold_left (fun ns t => propagate_name t ns) ts names.
Proof.
  revert names. induction ts as [| t ts IH]; intros names; cbn.
  - reflexivity.
  - apply IH.
Qed.


Lemma inverse_loop_app pre post x acc :
  inverse_loop (pre ++ post) x acc =
  ('(y, jac) <- inverse_loop pre x acc ;; inverse_loop post y jac).
Proof.
  revert x acc. induction pre as [| t pre IH]; intros x acc; cbn.
  - reflexivity.
  - destruct (inverse t x) as [e | [x' j]]; cbn.
    + reflexivity.
    + apply IH.
Qed.

Lemma inverse_loop_trace ts x acc :
  inverse_loop ts x acc =
  ('(y, js) <- inverse_trace ts x ;; ret (y, fold_left fadd js acc)).
Proof.
  revert x acc. induction ts as [| t ts IH]; intros x acc; cbn.
  - reflexivity.
  - destruct (inverse t x) as [e | [x' j]]; cbn.
    + reflexivity.
    + rewrite IH. destruct (inverse_trace ts x') as [e | [y js]]; reflexivity.
Qed.

Lemma inverse_loop_raise pre t post x0 acc x jac (e : exn) :
  inverse_loop pre x0 acc = ret (x, jac) ->
  inverse t x = raise e ->
  inverse_loop (pre ++ t :: post) x0 acc = raise e.
Proof.
  intros Hpre Ht. rewrite inverse_loop_app, Hpre. cbn. rewrite Ht.
  reflexivity.
Qed.

Lemma backward_loop_app pre post x :
  backward_loop (pre ++ post) x =
  (y <- backward_loop pre x ;; backward_loop post y).
Proof.
  revert x. induction pre as [| t pre IH]; intros x; cbn.
  - reflexivity.
  - destruct (backward t x) as [e | x']; cbn; [reflexivity | apply IH].
Qed.

Lemma forward_loop_app (l1 l2 : list (NtoMTransform V)) x :
  forward_loop (l1 ++ l2) x =
  (y <- forward_loop l1 x ;; forward_loop l2 y).
Proof.
  revert x. induction l1 as [| t l1 IH]; intros x; cbn.
  - reflexivity.
  - destruct (ntom_forward t x) as [e | x']; cbn; [reflexivity | apply IH].
Qed.

(** The body of [posterior], once the sample transforms have run. *)
Lemma posterior_unfold self (params : list V) (data : option Data) :
  posterior self params data =
  ('(named, jac) <-
      inverse_loop (sample_transforms self) (add_name self params) fzero ;;
   lp <- log_prob (prior self) named ;;
   named' <- forward_loop (likelihood_transforms self) named ;;
   l <- evaluate (likelihood self) named' data ;;
   ret (fadd l (fadd lp jac))).
Proof.
  unfold posterior.
  destruct (inverse_loop _ _ _) as [e | [named jac]]; reflexivity.
Qed.

End JimFacts.

(** ** Facts about the transform library *)

Lemma index_of_None (n : string) (l : list string) :
  index_of n l = None <-> ~ In n l.
Proof.
  induction l as [| m l IH]; cbn.
  - split; [intros _ [] | reflexivity].
  - destruct (String.eqb_spec n m) as [-> | Hne].
    + split; [discriminate | intros Hn; exfalso; apply Hn; left; reflexivity].
    + destruct (index_of n l) as [k |].
      * split; [discriminate |].
        intros Hn. exfalso. destruct IH as [_ IH].
        assert (Hl : ~ In n l) by (intros Hin; apply Hn; right; exact Hin).
        specialize (IH Hl). discriminate IH.
      * split; [| reflexivity].
        intros _ [Heq | Hin]; [apply Hne; symmetry; exact Heq |].
        destruct IH as [IH _]. apply (IH eq_refl). exact Hin.
Qed.

Lemma index_of_nth (n : string) (l : list string) (k : nat) :
  index_of n l = Some k -> nth_error l k = Some n.
Proof.
  revert k. induction l as [| m l IH]; intros k; cbn.
  - discriminate.
  - destruct (String.eqb_spec n m) as [-> | Hne].
    + intros [= <-]. reflexivity.
    + destruct (index_of n l) as [k' |]; [| discriminate].
      intros [= <-]. cbn. apply IH. reflexivity.
Qed.

Lemma rename_not_in (ins outs : list string) (n : string) :
  ~ In n ins -> rename ins outs n = n.
Proof.
  revert outs. induction ins as [| i ins IH]; intros outs Hn.
  - destruct outs; reflexivity.
  - destruct outs as [| o outs]; [reflexivity |]. cbn.
    destruct (String.eqb_spec n i) as [-> | Hne].
    + exfalso. apply Hn. left. reflexivity.
    + apply IH. intros Hin. apply Hn. right. exact Hin.
Qed.

Lemma index_of_In (n : string) (l : list string) :
  In n l -> exists k, index_of n l = Some k.
Proof.
  intros Hin. destruct (index_of n l) as [k |] eqn:Hk.
  - exists k. reflexivity.
  - exfalso. apply (proj1 (index_of_None n l) Hk). exact Hin.
Qed.

Lemma rename_index (ins outs : list string) (n o : string) (k : nat) :
  index_of n ins = Some k ->
  nth_error outs k = Some o ->
  rename ins outs n = o.
Proof.
  revert outs k. induction ins as [| i ins IH]; intros outs k Hk Ho.
  - discriminate Hk.
  - destruct outs as [| o' outs]; [destruct k; discriminate Ho |].
    cbn in Hk |- *.
    destruct (String.eqb_spec n i) as [-> | Hne].
    + injection Hk as <-. cbn in Ho. injection Ho as ->. reflexivity.
    + destruct (index_of n ins) as [k' |] eqn:Hk'; [| discriminate Hk].
      injection Hk as <-. cbn in Ho. exact (IH outs k' eq_refl Ho).
Qed.

Section TransformFacts.

Context {V F : Type} `{Scalar F}.


Lemma gather_present (names : list string) (x : NamedVector V) :
  (forall n, In n names -> Dict.get n x <> None) ->
  exists vals, gather names x = ret vals /\ length vals = length names.
Proof.
  induction names as [| a names IH]; intros Hall.
  - exists []. split; reflexivity.
  - cbn. destruct (Dict.get a x) as [v |] eqn:Ha.
    + destruct IH as (vals & Hg & Hlen).
      { intros n Hn. apply Hall. right. exact Hn. }
      exists (v :: vals). rewrite Hg. split; [reflexivity |].
      cbn. rewrite Hlen. reflexivity.
    + exfalso. apply (Hall a); [left; reflexivity | exact Ha].
Qed.


(** A transform built by [make_bijective] evaluates whenever every
    declared name is present: its two directions are total apart from
    the missing-name failure. *)
Lemma apply_func_present (consumed produced : list string)
    (func : list V -> list V * F) (x : NamedVector V) :
  (forall n, In n consumed -> Dict.get n x <> None) ->
  exists y ld, apply_func consumed produced func x = ret (y, ld).
Proof.
  intros Hall. destruct (gather_present consumed x Hall) as (vals & Hg & _).
  unfold apply_func. rewrite Hg. cbn.
  destruct (func vals) as [outs ld]. eexists. eexists. reflexivity.
Qed.

Lemma reverse_make_bijective (nm : list string * list string)
    (f g : list V -> list V * F) :
  reverse_bijective_transform (make_bijective nm f g) =
  make_bijective (snd nm, fst nm) g f.
Proof. reflexivity. Qed.

End TransformFacts.

(** ** The pipeline inside [Jim.posterior] *)

Section Posterior.

Context {V F : Type} `{Scalar F} {Data Key : Type}.

Implicit Types (self : Jim V F Data Key) (T t : BijectiveTransform V F).
Implicit Types (x n named : NamedVector V).
Implicit Types (j lp l : F) (js : list F).

(** What [posterior] returns when nothing raises, for any number of
    sample transforms. *)
Lemma posterior_value self (params : list V) (data : option Data)
    named js lp named' l :
  inverse_trace (sample_transforms self) (add_name self params) =
    ret (named, js) ->
  log_prob (prior self) named = ret lp ->
  forward_loop (likelihood_transforms self) named = ret named' ->
  evaluate (likelihood self) named' data = ret l ->
  posterior self params data =
    ret (fadd l (fadd lp (fold_left fadd js fzero))).
Proof.
  intros Htr Hlp Hfw Hev.
  rewrite posterior_unfold, inverse_loop_trace, Htr. cbn.
  rewrite Hlp. cbn. rewrite Hfw. cbn. rewrite Hev. reflexivity.
Qed.

(** C2.  For a pipeline of two sample transforms T1 then T2, the
    Jacobian total accumulated by [Jim.posterior] is 0.0 plus the
    log-Jacobian-determinant T1 reports at the named input plus the one
    T2 reports at T1's output, and [posterior] returns the likelihood
    plus the prior log-probability plus exactly that total; where
    0.0 + j1 is j1 the total is j1 + j2. *)
Theorem posterior_jacobian_additive self (params : list V)
    (data : option Data) T1 T2 n1 j1 n2 j2 lp named' l :
  sample_transforms self = [T1; T2] ->
  inverse T1 (add_name self params) = ret (n1, j1) ->
  inverse T2 n1 = ret (n2, j2) ->
  log_prob (prior self) n2 = ret lp ->
  forward_loop (likelihood_transforms self) n2 = ret named' ->
  evaluate (likelihood self) named' data = ret l ->
  inverse_loop (sample_transforms self) (add_name self params) fzero =
    ret (n2, fadd (fadd fzero j1) j2) /\
  posterior self params data =
    ret (fadd l (fadd lp (fadd (fadd fzero j1) j2))) /\
  (fadd fzero j1 = j1 ->
   posterior self params data = ret (fadd l (fadd lp (fadd j1 j2)))).
Proof.
  intros Hsts H1 H2 Hlp Hfw Hev.
  assert (Hloop :
    inverse_loop (sample_transforms self) (add_name self params) fzero =
    ret (n2, fadd (fadd fzero j1) j2)).
  { rewrite Hsts. cbn. rewrite H1. cbn. rewrite H2. reflexivity. }
  assert (Hpost :
    posterior self params data =
    ret (fadd l (fadd lp (fadd (fadd fzero j1) j2)))).
  { rewrite posterior_unfold, Hloop. cbn.
    rewrite Hlp. cbn. rewrite Hfw. cbn. rewrite Hev. reflexivity. }
  split; [exact Hloop |]. split; [exact Hpost |].
  intros H0. rewrite Hpost, H0. reflexivity.
Qed.

Lemma posterior_absorb self (params : list V) (data : option Data) :
  posterior self params data =
  posterior (absorb_likelihood_transforms self) params data.
Proof.
  rewrite !posterior_unfold. cbn.
  destruct (inverse_loop _ _ _) as [e | [named jac]]; cbn; [reflexivity |].
  destruct (log_prob (prior self) named) as [e | lp]; cbn; [reflexivity |].
  destruct (forward_loop (likelihood_transforms self) named)
    as [e | named']; reflexivity.
Qed.

(** C9.  [Jim.posterior] returns the likelihood plus the prior
    log-probability plus the sum, from 0.0, of the log-Jacobians the
    sample transforms' inverses reported; the likelihood transforms
    only change the dictionary the likelihood is evaluated on, so the
    value is that of a Jim without likelihood transforms whose
    likelihood runs them itself. *)
Theorem posterior_jacobian_from_sample_transforms_only self
    (params : list V) (data : option Data) named js lp named' l :
  inverse_trace (sample_transforms self) (add_name self params) =
    ret (named, js) ->
  log_prob (prior self) named = ret lp ->
  forward_loop (likelihood_transforms self) named = ret named' ->
  evaluate (likelihood self) named' data = ret l ->
  posterior self params data =
    ret (fadd l (fadd lp (fold_left fadd js fzero))) /\
  posterior self params data =
    posterior (absorb_likelihood_transforms self) params data.
Proof.
  intros Htr Hlp Hfw Hev. split.
  - exact (posterior_value self params data named js lp named' l
             Htr Hlp Hfw Hev).
  - apply posterior_absorb.
Qed.

End Posterior.

(** ** Missing names *)

Section MissingNames.

Context {V F : Type} `{Scalar F} {Data Key : Type}.

(** An exception raised by a sample transform's [inverse] leaves
    [posterior] as it is: nothing in lines 94-105 catches it. *)
Lemma posterior_surfaces_inverse (self : Jim V F Data Key)
    (params : list V) (data : option Data)
    (pre post : list (BijectiveTransform V F)) (t : BijectiveTransform V F)
    (x : NamedVector V) (jac : F) (e : exn) :
  sample_transforms self = pre ++ t :: post ->
  inverse_loop pre (add_name self params) fzero = ret (x, jac) ->
  inverse t x = raise e ->
  posterior self params data = raise e.
Proof.
  intros Hsts Hpre Ht.
  rewrite posterior_unfold, Hsts.
  rewrite (inverse_loop_raise pre t post _ _ x jac e Hpre Ht).
  reflexivity.
Qed.

(** The same for a likelihood transform's [forward]. *)
Lemma posterior_surfaces_forward (self : Jim V F Data Key)
    (params : list V) (data : option Data)
    (pre post : list (NtoMTransform V)) (t : NtoMTransform V)
    (named x : NamedVector V) (jac lp : F) (e : exn) :
  inverse_loop (sample_transforms self) (add_name self params) fzero =
    ret (named, jac) ->
  log_prob (prior self) named = ret lp ->
  likelihood_transforms self = pre ++ t :: post ->
  forward_loop pre named = ret x ->
  ntom_forward t x = raise e ->
  posterior self params data = raise e.
Proof.
  intros Hinv Hlp Hlts Hpre Ht.
  rewrite posterior_unfold, Hinv. cbn. rewrite Hlp. cbn.
  rewrite Hlts, forward_loop_app, Hpre. cbn. rewrite Ht. reflexivity.
Qed.


End MissingNames.

(** ** Name propagation and the constructor *)

Section Names.

Context {V F : Type} {Data Key : Type}.

Lemma Jim_init_parameter_names (lik : LikelihoodBase V F Data)
    (pr : Prior V F Key) (sts : list (BijectiveTransform V F))
    (lts : list (NtoMTransform V)) :
  parameter_names (Jim_init lik pr sts lts) =
  fold_left (fun ns t => propagate_name t ns) sts (prior_parameter_names pr).
Proof.
  unfold Jim_init. cbn. destruct sts as [| t sts]; cbn.
  - reflexivity.
  - apply propagate_loop_fold.
Qed.

(** C3.  Propagation through any transform keeps the length of the list
    of names, leaves in place every name that is not one of the
    transform's input names, and puts the k-th output name at every
    position that held the k-th input name, wherever that is; with as
    many output names as input names every input name is replaced so.
    [Jim.__init__] obtains [parameter_names] by folding the sample
    transforms' propagation over the prior's parameter names. *)
Theorem propagate_name_replaces_in_place (nm : list string * list string)
    (names : list string) (i : nat) (n : string)
    (lik : LikelihoodBase V F Data) (pr : Prior V F Key)
    (sts : list (BijectiveTransform V F)) (lts : list (NtoMTransform V)) :
  nth_error names i = Some n ->
  length (propagate_name_of nm names) = length names /\
  (~ In n (fst nm) -> nth_error (propagate_name_of nm names) i = Some n) /\
  (forall k o, index_of n (fst nm) = Some k ->
     nth_error (snd nm) k = Some o ->
     nth_error (propagate_name_of nm names) i = Some o) /\
  (length (fst nm) = length (snd nm) -> In n (fst nm) ->
   exists k o, index_of n (fst nm) = Some k /\
               nth_error (snd nm) k = Some o /\
               nth_error (propagate_name_of nm names) i = Some o) /\
  parameter_names (Jim_init lik pr sts lts) =
    fold_left (fun ns t => propagate_name t ns) sts
              (prior_parameter_names pr).
Proof.
  intros Hi. unfold propagate_name_of.
  assert (Hat : forall k o, index_of n (fst nm) = Some k ->
            nth_error (snd nm) k = Some o ->
            nth_error (map (rename (fst nm) (snd nm)) names) i = Some o).
  { intros k o Hk Ho. rewrite nth_error_map, Hi. cbn.
    rewrite (rename_index _ _ _ _ _ Hk Ho). reflexivity. }
  split; [apply length_map |].
  split; [| split; [exact Hat | split]].
  - intros Hn. rewrite nth_error_map, Hi. cbn.
    rewrite (rename_not_in _ _ _ Hn). reflexivity.
  - intros Hlen Hin. destruct (index_of_In n (fst nm) Hin) as (k & Hk).
    assert (Hlt : k < length (snd nm)).
    { rewrite <- Hlen. apply nth_error_Some.
      rewrite (index_of_nth _ _ _ Hk). discriminate. }
    destruct (nth_error (snd nm) k) as [o |] eqn:Ho.
    + exists k, o. split; [exact Hk |]. split; [exact Ho |].
      exact (Hat k o Hk Ho).
    + exfalso. apply nth_error_None in Ho.
      exact (proj1 (Nat.lt_nge _ _) Hlt Ho).
  - apply Jim_init_parameter_names.
Qed.

End Names.

(** ** Reversal *)

Section Reversal.

Context {V F : Type} `{Scalar F}.


End Reversal.

(** ** Point estimation *)

Section MaximizeLikelihood.

Import Exact Untyped.

Context {Bounds Optimizer Fit Rest : Type}.

Variable PRNGKey : Z -> Z.
Variable EvolutionaryOptimizer : nat -> Optimizer.
Variable optimize :
  Optimizer -> (list (list pyval) -> result (list Z)) -> Bounds -> nat ->
  result Optimizer.
Variable get_result : Optimizer -> Fit * Rest.

(** C10.  The objective [maximize_likelihood] builds is the negative of
    the full posterior: on the array [1.0] that [Jim.sample] makes of
    the prior's draw it is -(1 + (-100 + 0.0)) = 99.  But line 131 hands
    that objective the prior's draw itself, a dictionary, so that
    [add_name] zips the parameter names with the dictionary's keys and
    the prior is asked for the density of the string ["x"]: with a
    numeric prior, at least one walker, and any optimizer, bounds,
    number of loops and seed, [maximize_likelihood] raises [TypeError]
    before the optimizer is run and returns no best-fit point. *)
Theorem maximize_likelihood_trial_call_raises (bounds : Bounds)
    (n n_loops : nat) (seed : Z) :
  sample (prior jim_num) (PRNGKey seed) (S n) =
    repeat [("x", Num 1%Z)] (S n) /\
  sample_initial_guess jim_num (PRNGKey seed) (S n) =
    ret (repeat [Num 1%Z] (S n)) /\
  negative_posterior jim_num [Num 1%Z] = ret 99%Z /\
  add_name jim_num (map Str (Dict.keys (tree_rebuild [("x", Num 1%Z)]))) =
    [("x", Str "x")] /\
  negative_posterior jim_num
    (map Str (Dict.keys (tree_rebuild [("x", Num 1%Z)]))) =
    raise (Raised "TypeError") /\
  maximize_likelihood PRNGKey EvolutionaryOptimizer optimize get_result Str
      jim_num bounds (S n) n_loops seed
    = raise (Raised "TypeError").
Proof.
  split; [reflexivity |].
  split.
  { unfold sample_initial_guess. cbn [sample_transforms jim_num Jim_init
      sample_forward_loop bind ret]. cbn.
    f_equal. f_equal. induction n as [| n IH]; [reflexivity |].
    cbn. f_equal. exact IH. }
  split; [reflexivity |]. split; [reflexivity |]. split; [reflexivity |].
  reflexivity.
Qed.

End MaximizeLikelihood.

(** ** The statements at concrete inputs *)

Import Exact.

(** [Jim.__init__] on the chained pipeline: x -> y -> z. *)
Example jim_chain_parameter_names : parameter_names jim_chain = ["z"].
Proof. reflexivity. Qed.

(** [test_scale_transform] with the scale 2: forward values, the
    log-determinant for two names, and the way back. *)
Example scale_ab_transform :
  transform scale_ab input_data =
  ret ([("a_scaled", 4%Z); ("b_scaled", 8%Z)], 2%Z).
Proof. reflexivity. Qed.

Example scale_ab_inverse :
  inverse scale_ab [("a_scaled", 4%Z); ("b_scaled", 8%Z)] =
  ret (input_data, (-2)%Z).
Proof. reflexivity. Qed.

Lemma posterior_jacobian_additive_witness :
  inverse_loop (sample_transforms jim_same) (add_name jim_same [6%Z]) fzero =
    ret ([("x", 1%Z)], (-1)%Z) /\
  posterior jim_same [6%Z] None = ret (-100)%Z /\
  (fadd fzero (-1)%Z = (-1)%Z -> posterior jim_same [6%Z] None = ret (-100)%Z).
Proof.
  exact (posterior_jacobian_additive jim_same [6%Z] None scale_x offset_x
           [("x", 3%Z)] (-1)%Z [("x", 1%Z)] 0%Z (-100)%Z [("x", 1%Z)] 1%Z
           eq_refl eq_refl eq_refl eq_refl eq_refl eq_refl).
Defined.

Lemma posterior_jacobian_from_sample_transforms_only_witness :
  posterior jim_lik [6%Z] None = ret (-99)%Z /\
  posterior jim_lik [6%Z] None =
    posterior (absorb_likelihood_transforms jim_lik) [6%Z] None.
Proof.
  exact (posterior_jacobian_from_sample_transforms_only jim_lik [6%Z] None
           [("x", 1%Z)] [(-1)%Z; 0%Z] (-100)%Z [("x", 2%Z)] 2%Z
           eq_refl eq_refl eq_refl eq_refl).
Defined.



Lemma propagate_name_replaces_in_place_witness :
  nth_error (propagate_name_of (["a"; "b"], ["a_scaled"; "b_scaled"])
                               ["a"; "c"; "b"]) 2 = Some "b_scaled" /\
  parameter_names jim_chain =
    fold_left (fun ns t => propagate_name t ns) [offset_x_y; scale_y_z] ["x"].
Proof.
  destruct (propagate_name_replaces_in_place
              (["a"; "b"], ["a_scaled"; "b_scaled"]) ["a"; "c"; "b"] 2 "b"
              likelihood_x prior_x [offset_x_y; scale_y_z] [] eq_refl)
    as (_ & _ & Hat & _ & Hinit).
  split; [exact (Hat 1 "b_scaled" eq_refl eq_refl) | exact Hinit].
Defined.



(** ** The order of the inverses *)

(** With at most one sample transform the order of the visit cannot
    matter. *)
Lemma inverse_loop_rev_single {V F : Type} `{Scalar F}
    (t : BijectiveTransform V F) (x : NamedVector V) (acc : F) :
  inverse_loop (rev [t]) x acc = inverse_loop [t] x acc.
Proof. reflexivity. Qed.

(** C1.  Backward execution is to apply the inverses last transform
    first.  [Jim.sample] sends the prior draw x = 1 to the sampling point
    [4] through both pipelines below, and the inverses taken last
    transform first give x = 1 back with Jacobian total -1.
    [Jim.posterior] and [Jim.get_samples] visit the sample transforms
    first transform first: on the chained pipeline x -> y -> z they raise
    [MissingParameterError "y"], and on the pipeline that keeps the name
    [x] they reconstruct x = 0, so that [posterior] returns
    0 + (0 + -1) = -1 where x = 1 gives 1 + (-100 + -1) = -100. *)
Theorem posterior_inverts_in_list_order :
  (parameter_names jim_chain = ["z"] /\
   sample_initial_guess jim_chain 0%Z 1 = ret [[4%Z]] /\
   inverse_loop (rev (sample_transforms jim_chain))
                (add_name jim_chain [4%Z]) fzero
     = ret ([("x", 1%Z)], (-1)%Z) /\
   backward_loop (rev (sample_transforms jim_chain))
                 (add_name jim_chain [4%Z])
     = ret [("x", 1%Z)] /\
   posterior jim_chain [4%Z] None = raise (MissingParameterError "y") /\
   get_samples jim_chain [[4%Z]] = raise (MissingParameterError "y")) /\
  (parameter_names jim_same = ["x"] /\
   sample_initial_guess jim_same 0%Z 1 = ret [[4%Z]] /\
   inverse_loop (rev (sample_transforms jim_same))
                (add_name jim_same [4%Z]) fzero
     = ret ([("x", 1%Z)], (-1)%Z) /\
   log_prob (prior jim_same) [("x", 1%Z)] = ret (-100)%Z /\
   evaluate (likelihood jim_same) [("x", 1%Z)] None = ret 1%Z /\
   inverse_loop (sample_transforms jim_same) (add_name jim_same [4%Z]) fzero
     = ret ([("x", 0%Z)], (-1)%Z) /\
   posterior jim_same [4%Z] None = ret (-1)%Z /\
   get_samples jim_same [[4%Z]] = ret [("x", [0%Z])]).
Proof.
  split; repeat split; reflexivity.
Qed.

(** * Further properties of jim.py *)

(** ** More on dictionaries *)

Section DictOrder.

Context {A : Type}.

Lemma get_None_keys (k : string) (d : Dict.t A) :
  Dict.get k d = None <-> ~ In k (Dict.keys d).
Proof.
  induction d as [| [k0 v0] d IH]; cbn.
  - split; [intros _ [] | reflexivity].
  - destruct (String.eqb_spec k k0) as [-> | Hne].
    + split; [discriminate | intros Hn; exfalso; apply Hn; left; reflexivity].
    + rewrite IH. split.
      * intros Hn [Heq | Hin]; [apply Hne; symmetry; exact Heq | exact (Hn Hin)].
      * intros Hn Hin. apply Hn. right. exact Hin.
Qed.

Lemma get_app (k : string) (d1 d2 : Dict.t A) :
  Dict.get k (d1 ++ d2) =
  match Dict.get k d1 with
  | Some v => Some v
  | None => Dict.get k d2
  end.
Proof.
  induction d1 as [| [k0 v0] d1 IH]; cbn.
  - reflexivity.
  - destruct (String.eqb k k0); [reflexivity | exact IH].
Qed.

Lemma set_absent (k : string) (v : A) (d : Dict.t A) :
  ~ In k (Dict.keys d) -> Dict.set k v d = d ++ [(k, v)].
Proof.
  induction d as [| [k0 v0] d IH]; cbn; intros Hn.
  - reflexivity.
  - destruct (String.eqb_spec k k0) as [-> | Hne].
    + exfalso. apply Hn. left. reflexivity.
    + rewrite IH; [reflexivity |]. intros Hin. apply Hn. right. exact Hin.
Qed.

Lemma keys_set_present (k : string) (v : A) (d : Dict.t A) :
  In k (Dict.keys d) -> Dict.keys (Dict.set k v d) = Dict.keys d.
Proof.
  induction d as [| [k0 v0] d IH]; cbn; intros Hin.
  - destruct Hin.
  - destruct (String.eqb_spec k k0) as [-> | Hne]; cbn.
    + reflexivity.
    + f_equal. apply IH.
      destruct Hin as [Heq | Hin]; [exfalso; apply Hne; symmetry; exact Heq |].
      exact Hin.
Qed.

Lemma length_set_le (k : string) (v : A) (d : Dict.t A) :
  length (Dict.set k v d) <= S (length d).
Proof.
  induction d as [| [k0 v0] d IH]; cbn.
  - lia.
  - destruct (String.eqb k k0); cbn; lia.
Qed.

Lemma fold_set_nodup (ps : list (string * A)) (d : Dict.t A) :
  NoDup (Dict.keys d ++ map fst ps) ->
  fold_left (fun d p => Dict.set (fst p) (snd p) d) ps d = d ++ ps.
Proof.
  revert d. induction ps as [| [k v] ps IH]; intros d Hnd; cbn.
  - symmetry. apply app_nil_r.
  - cbn in Hnd. rewrite set_absent.
    + rewrite IH.
      * rewrite <- app_assoc. reflexivity.
      * unfold Dict.keys in *. rewrite map_app. cbn.
        rewrite <- app_assoc. exact Hnd.
    + intros Hin. apply NoDup_remove_2 in Hnd. apply Hnd.
      apply in_or_app. left. exact Hin.
Qed.

(** [dict(pairs)] of pairs with distinct keys is the list of pairs, in
    order. *)
Lemma of_pairs_nodup (ps : list (string * A)) :
  NoDup (map fst ps) -> Dict.of_pairs ps = ps.
Proof.
  intros Hnd. unfold Dict.of_pairs. rewrite fold_set_nodup; [reflexivity |].
  exact Hnd.
Qed.

Lemma fold_set_length (ps : list (string * A)) (d : Dict.t A) :
  length (fold_left (fun d p => Dict.set (fst p) (snd p) d) ps d)
  <= length d + length ps.
Proof.
  revert d. induction ps as [| [k v] ps IH]; intros d; cbn.
  - lia.
  - specialize (IH (Dict.set k v d)). pose proof (length_set_le k v d). lia.
Qed.

(** Looking a key up in [dict(pairs)] finds the last pair that has it. *)
Lemma get_of_pairs_last (k : string) (ps : list (string * A)) :
  Dict.get k (Dict.of_pairs ps) = Dict.get k (rev ps).
Proof.
  unfold Dict.of_pairs.
  assert (Hgen : forall d,
    Dict.get k (fold_left (fun d p => Dict.set (fst p) (snd p) d) ps d) =
    match Dict.get k (rev ps) with
    | Some v => Some v
    | None => Dict.get k d
    end).
  { induction ps as [| [k0 v0] ps IH]; intros d; cbn.
    - reflexivity.
    - rewrite IH, get_app, get_set. cbn.
      destruct (Dict.get k (rev ps)); [reflexivity |].
      destruct (String.eqb k k0); reflexivity. }
  rewrite Hgen. destruct (Dict.get k (rev ps)); reflexivity.
Qed.

End DictOrder.

Lemma map_fst_combine {A B : Type} (l : list A) (l' : list B) :
  map fst (combine l l') = firstn (length l') l.
Proof.
  revert l'. induction l as [| a l IH]; intros [| b l']; cbn.
  - reflexivity.
  - reflexivity.
  - reflexivity.
  - rewrite IH. reflexivity.
Qed.

Lemma map_snd_combine {A B : Type} (l : list A) (l' : list B) :
  map snd (combine l l') = firstn (length l) l'.
Proof.
  revert l'. induction l as [| a l IH]; intros [| b l']; cbn.
  - reflexivity.
  - reflexivity.
  - reflexivity.
  - rewrite IH. reflexivity.
Qed.

Lemma NoDup_firstn_of {A : Type} (n : nat) (l : list A) :
  NoDup l -> NoDup (firstn n l).
Proof.
  intros Hnd. rewrite <- (firstn_skipn n l) in Hnd.
  exact (NoDup_app_remove_r _ _ Hnd).
Qed.


(** ** [Jim.add_name] *)

Section AddName.

Context {V F Data Key : Type}.

Implicit Types (self : Jim V F Data Key).

Lemma add_name_zip {A : Type} self (x : list A) :
  NoDup (parameter_names self) ->
  add_name self x = combine (parameter_names self) x.
Proof.
  intros Hnd. unfold add_name. apply of_pairs_nodup.
  rewrite map_fst_combine. apply NoDup_firstn_of. exact Hnd.
Qed.

(** X1.  With distinct parameter names [add_name] is [zip]: the k-th name
    is paired with the k-th value, in order, as far as both lists go. *)
Theorem add_name_is_zip {A : Type} self (x : list A) :
  NoDup (parameter_names self) ->
  add_name self x = combine (parameter_names self) x /\
  Dict.keys (add_name self x) = firstn (length x) (parameter_names self) /\
  Dict.values (add_name self x) = firstn (length (parameter_names self)) x.
Proof.
  intros Hnd. rewrite (add_name_zip self x Hnd). split; [reflexivity |].
  split; [apply map_fst_combine | apply map_snd_combine].
Qed.


(** X3.  [add_name] looks a name up among the zipped pairs from the
    last one backwards: when a parameter name is repeated the value at
    the later position is the one kept. *)
Theorem add_name_last_wins {A : Type} self (x : list A) (n : string) :
  Dict.get n (add_name self x) =
  Dict.get n (rev (combine (parameter_names self) x)).
Proof. unfold add_name. apply get_of_pairs_last. Qed.

(** X4.  [add_name] accepts an array of any length: a name that does not
    occur among the first [len(x)] parameter names is absent from the
    result, which never has more entries than there are names or
    values. *)
Theorem add_name_truncates {A : Type} self (x : list A) (n : string) :
  ~ In n (firstn (length x) (parameter_names self)) ->
  Dict.get n (add_name self x) = None /\
  length (add_name self x)
    <= Nat.min (length (parameter_names self)) (length x).
Proof.
  intros Hn. split.
  - unfold add_name. apply get_of_pairs_absent.
    rewrite map_fst_combine. exact Hn.
  - unfold add_name, Dict.of_pairs.
    pose proof (fold_set_length (combine (parameter_names self) x) []) as Hle.
    rewrite length_combine in Hle. exact Hle.
Qed.

End AddName.

(** ** The stages of [Jim.posterior] *)

Section PosteriorStages.

Context {V F : Type} `{Scalar F} {Data Key : Type}.

Implicit Types (self : Jim V F Data Key) (t : BijectiveTransform V F).
Implicit Types (ts pre post : list (BijectiveTransform V F)).
Implicit Types (x y named : NamedVector V) (acc jac lp l v : F) (e : exn).

Lemma inverse_trace_loop ts x acc y jac :
  inverse_loop ts x acc = ret (y, jac) ->
  exists js, inverse_trace ts x = ret (y, js) /\ jac = fold_left fadd js acc.
Proof.
  rewrite inverse_loop_trace.
  destruct (inverse_trace ts x) as [e | [y' js]]; cbn; intros Heq.
  - discriminate Heq.
  - injection Heq as <- <-. exists js. split; reflexivity.
Qed.

(** The loop of lines 97-99 raises exactly when some transform's
    [inverse] raises at the point the transforms before it produced. *)
Lemma inverse_loop_raise_inv ts x acc e :
  inverse_loop ts x acc = raise e ->
  exists pre t post y jac,
    ts = pre ++ t :: post /\
    inverse_loop pre x acc = ret (y, jac) /\
    inverse t y = raise e.
Proof.
  revert x acc. induction ts as [| t ts IH]; intros x acc; cbn.
  - discriminate.
  - destruct (inverse t x) as [e' | [x' j]] eqn:Ht; cbn.
    + intros [= ->]. exists [], t, ts, x, acc.
      split; [reflexivity |]. split; [reflexivity | exact Ht].
    + intros Hrest.
      destruct (IH _ _ Hrest) as (pre & t' & post & y & jac & -> & Hpre & Ht').
      exists (t :: pre), t', post, y, jac.
      split; [reflexivity |]. split; [| exact Ht'].
      cbn. rewrite Ht. cbn. exact Hpre.
Qed.

(** X5.  [posterior] returns a value exactly when the inverses of all
    sample transforms, the prior, the forward maps of all likelihood
    transforms and the likelihood all return, and the value is then the
    likelihood plus (the prior log-probability plus the Jacobians summed
    from 0.0 in the order of the list). *)
Theorem posterior_returns_iff self (params : list V) (data : option Data) v :
  posterior self params data = ret v <->
  exists named js lp named' l,
    inverse_trace (sample_transforms self) (add_name self params) =
      ret (named, js) /\
    log_prob (prior self) named = ret lp /\
    forward_loop (likelihood_transforms self) named = ret named' /\
    evaluate (likelihood self) named' data = ret l /\
    v = fadd l (fadd lp (fold_left fadd js fzero)).
Proof.
  split.
  - rewrite posterior_unfold.
    destruct (inverse_loop _ _ _) as [e | [named jac]] eqn:Hloop; cbn;
      [discriminate |].
    destruct (inverse_trace_loop _ _ _ _ _ Hloop) as (js & Htr & ->).
    destruct (log_prob (prior self) named) as [e | lp] eqn:Hlp; cbn;
      [discriminate |].
    destruct (forward_loop (likelihood_transforms self) named)
      as [e | named'] eqn:Hfw; cbn; [discriminate |].
    destruct (evaluate (likelihood self) named' data) as [e | l] eqn:Hev; cbn;
      [discriminate |].
    intros [= <-]. exists named, js, lp, named', l.
    repeat (split; [assumption |]). reflexivity.
  - intros (named & js & lp & named' & l & Htr & Hlp & Hfw & Hev & ->).
    exact (posterior_value self params data named js lp named' l
             Htr Hlp Hfw Hev).
Qed.

(** X6.  [posterior] raises the exception of the first stage that fails,
    in the order sample transforms, prior, likelihood transforms,
    likelihood; a stage is reached only when all stages before it
    returned, so that, for one, a failing prior hides whatever the
    likelihood would do. *)
Theorem posterior_raises_iff self (params : list V) (data : option Data) e :
  posterior self params data = raise e <->
  (exists pre t post y jac,
     sample_transforms self = pre ++ t :: post /\
     inverse_loop pre (add_name self params) fzero = ret (y, jac) /\
     inverse t y = raise e) \/
  (exists named jac,
     inverse_loop (sample_transforms self) (add_name self params) fzero =
       ret (named, jac) /\
     (log_prob (prior self) named = raise e \/
      exists lp,
        log_prob (prior self) named = ret lp /\
        (forward_loop (likelihood_transforms self) named = raise e \/
         exists named',
           forward_loop (likelihood_transforms self) named = ret named' /\
           evaluate (likelihood self) named' data = raise e))).
Proof.
  split.
  - rewrite posterior_unfold.
    destruct (inverse_loop _ _ _) as [e0 | [named jac]] eqn:Hloop; cbn.
    + intros [= ->]. left. exact (inverse_loop_raise_inv _ _ _ _ Hloop).
    + intros Hrest. right. exists named, jac. split; [reflexivity |].
      unfold raise in *.
      destruct (log_prob (prior self) named) as [e0 | lp]; cbn in Hrest.
      * left. injection Hrest as ->. reflexivity.
      * right. exists lp. split; [reflexivity |].
        destruct (forward_loop (likelihood_transforms self) named)
          as [e0 | named']; cbn in Hrest.
        -- left. injection Hrest as ->. reflexivity.
        -- right. exists named'. split; [reflexivity |].
           destruct (evaluate (likelihood self) named' data) as [e0 | l];
             cbn in Hrest; [| discriminate Hrest].
           injection Hrest as ->. reflexivity.
  - intros [(pre & t & post & y & jac & Hsts & Hpre & Ht) | Hlater].
    + exact (posterior_surfaces_inverse self params data pre post t y jac e
               Hsts Hpre Ht).
    + destruct Hlater as (named & jac & Hloop & Hstage).
      rewrite posterior_unfold, Hloop. cbn.
      destruct Hstage as [Hlp | (lp & Hlp & Hstage)]; rewrite Hlp; cbn;
        [reflexivity |].
      destruct Hstage as [Hfw | (named' & Hfw & Hev)]; rewrite Hfw; cbn;
        [reflexivity |].
      rewrite Hev. reflexivity.
Qed.

(** X17.  Running the inverses of a list of sample transforms split in
    two is running the first part and then the second part, started from
    the dictionary and the Jacobian total the first part ended with: the
    result does not depend on where the list is split. *)
Theorem inverse_loop_grouping pre post x acc :
  inverse_loop (pre ++ post) x acc =
  ('(y, jac) <- inverse_loop pre x acc ;; inverse_loop post y jac).
Proof. apply inverse_loop_app. Qed.

(** X7.  When every sample transform's [backward] is its [inverse]
    without the Jacobian, the dictionary [get_samples] reconstructs from
    a sample (lines 248-249) is the one [posterior] evaluates the prior
    on, and one of the two loops raises exactly when the other does. *)
Theorem backward_loop_is_inverse_loop ts x acc :
  Forall (fun t => forall y,
            backward t y = ('(z, _) <- inverse t y ;; ret z)) ts ->
  backward_loop ts x = ('(z, _) <- inverse_loop ts x acc ;; ret z).
Proof.
  intros Hall. revert x acc.
  induction Hall as [| t ts Ht _ IH]; intros x acc; cbn.
  - reflexivity.
  - rewrite Ht. destruct (inverse t x) as [e | [x' j]]; cbn.
    + reflexivity.
    + apply IH.
Qed.

End PosteriorStages.

(** ** [Jim.get_samples] *)

Section DictKeys.

Context {A : Type}.

Lemma In_keys_set (k k0 : string) (v : A) (d : Dict.t A) :
  In k (Dict.keys (Dict.set k0 v d)) <-> k = k0 \/ In k (Dict.keys d).
Proof.
  induction d as [| [k1 v1] d IH]; cbn.
  - split; [intros [<- | []]; left; reflexivity | intros [-> | []]; left; reflexivity].
  - destruct (String.eqb_spec k0 k1) as [-> | Hne]; cbn.
    + split; [intros Hin; right; exact Hin |].
      intros [-> | Hin]; [left; reflexivity | exact Hin].
    + rewrite IH. split.
      * intros [<- | [-> | Hin]];
          [right; left; reflexivity | left; reflexivity | right; right; exact Hin].
      * intros [-> | [<- | Hin]];
          [right; left; reflexivity | left; reflexivity | right; right; exact Hin].
Qed.

Lemma set_app_head (k : string) (v v0 : A) (d1 d2 : Dict.t A) :
  ~ In k (Dict.keys d1) ->
  Dict.set k v (d1 ++ (k, v0) :: d2) = d1 ++ (k, v) :: d2.
Proof.
  induction d1 as [| [k1 v1] d1 IH]; cbn; intros Hn.
  - rewrite String.eqb_refl. reflexivity.
  - destruct (String.eqb_spec k k1) as [-> | Hne].
    + exfalso. apply Hn. left. reflexivity.
    + rewrite IH; [reflexivity |]. intros Hin. apply Hn. right. exact Hin.
Qed.

Lemma get_app_head (k : string) (v0 : A) (d1 d2 : Dict.t A) :
  ~ In k (Dict.keys d1) ->
  Dict.get k (d1 ++ (k, v0) :: d2) = Some v0.
Proof.
  intros Hn. rewrite get_app.
  rewrite (proj2 (get_None_keys k d1) Hn). cbn.
  rewrite String.eqb_refl. reflexivity.
Qed.

(** In a dictionary with distinct keys every entry is found under its
    key. *)
Lemma get_entry (d : Dict.t A) (p : string * A) :
  NoDup (Dict.keys d) -> In p d -> Dict.get (fst p) d = Some (snd p).
Proof.
  induction d as [| [k v] d IH]; cbn; intros Hnd Hin.
  - destruct Hin.
  - inversion Hnd as [| k' ks Hk Hnd']; subst.
    destruct Hin as [<- | Hin]; cbn.
    + rewrite String.eqb_refl. reflexivity.
    + destruct (String.eqb_spec (fst p) k) as [Heq | _].
      * exfalso. apply Hk. rewrite <- Heq. apply in_map. exact Hin.
      * apply IH; assumption.
Qed.

Lemma column_app (k : string) (ds1 ds2 : list (Dict.t A)) :
  column k (ds1 ++ ds2) = column k ds1 ++ column k ds2.
Proof. unfold column. apply flat_map_app. Qed.

Lemma column_entry (d : Dict.t A) (p : string * A) :
  NoDup (Dict.keys d) -> In p d -> column (fst p) [d] = [snd p].
Proof.
  intros Hnd Hin. unfold column. cbn.
  rewrite (get_entry d p Hnd Hin). reflexivity.
Qed.

Lemma column_length (k : string) (ds : list (Dict.t A)) :
  Forall (fun d => In k (Dict.keys d)) ds ->
  length (column k ds) = length ds.
Proof.
  induction 1 as [| d ds Hd _ IH].
  - reflexivity.
  - change (d :: ds) with ([d] ++ ds) at 1.
    rewrite column_app, length_app, IH. unfold column. cbn.
    destruct (Dict.get k d) as [v |] eqn:Hget; [reflexivity |].
    exfalso. exact (proj1 (get_None_keys k d) Hget Hd).
Qed.

End DictKeys.

Section GetSamples.

Context {V F : Type} {Data Key : Type}.

Implicit Types (self : Jim V F Data Key) (d : NamedVector V).
Implicit Types (ds : list (NamedVector V)) (ks : list string).
Implicit Types (tc done : Dict.t (list V)).

(** Lines 250-251 on a dictionary with distinct keys. *)
Lemma chain_start_app d tc :
  NoDup (Dict.keys tc ++ Dict.keys d) ->
  chain_start d tc = tc ++ map (fun p => (fst p, [snd p])) d.
Proof.
  revert tc. induction d as [| [k v] d IH]; intros tc Hnd; cbn.
  - symmetry. apply app_nil_r.
  - cbn in Hnd. rewrite set_absent.
    + rewrite IH.
      * rewrite <- app_assoc. reflexivity.
      * unfold Dict.keys in *. rewrite map_app. cbn.
        rewrite <- app_assoc. exact Hnd.
    + intros Hin. apply NoDup_remove_2 in Hnd. apply Hnd.
      apply in_or_app. left. exact Hin.
Qed.

Lemma chain_start_columns d :
  NoDup (Dict.keys d) -> chain_start d [] = columns (Dict.keys d) [d].
Proof.
  intros Hnd. rewrite chain_start_app by exact Hnd. rewrite app_nil_l.
  unfold columns, Dict.keys. rewrite map_map.
  apply map_ext_in. intros p Hp.
  f_equal. symmetry. exact (column_entry d p Hnd Hp).
Qed.

Lemma In_keys_chain_start (k : string) d tc :
  In k (Dict.keys (chain_start d tc)) <->
  In k (Dict.keys tc) \/ In k (Dict.keys d).
Proof.
  revert tc. induction d as [| [k0 v0] d IH]; intros tc.
  - split; [intros Hin; left; exact Hin | intros [Hin | []]; exact Hin].
  - change (chain_start ((k0, v0) :: d) tc)
      with (chain_start d (Dict.set k0 [v0] tc)).
    change (Dict.keys ((k0, v0) :: d)) with (k0 :: Dict.keys d).
    rewrite IH, In_keys_set. split.
    + intros [[-> | Hin] | Hin];
        [right; left; reflexivity | left; exact Hin | right; right; exact Hin].
    + intros [Hin | [<- | Hin]];
        [left; right; exact Hin | left; left; reflexivity | right; exact Hin].
Qed.

(** Lines 256-257 when the sample has the keys of the chain, in the same
    order: every list grows by the sample's value. *)
Lemma chain_append_aligned (col : string -> list V) d done :
  NoDup (Dict.keys done ++ Dict.keys d) ->
  chain_append d (done ++ map (fun p => (fst p, col (fst p))) d) =
  ret (done ++ map (fun p => (fst p, col (fst p) ++ [snd p])) d).
Proof.
  revert done. induction d as [| [k v] d IH]; intros done Hnd; cbn.
  - reflexivity.
  - assert (Hk : ~ In k (Dict.keys done)).
    { intros Hin. apply NoDup_remove_2 in Hnd. apply Hnd.
      apply in_or_app. left. exact Hin. }
    rewrite (get_app_head k (col k) done _ Hk).
    rewrite (set_app_head k (col k ++ [v]) (col k) done _ Hk).
    specialize (IH (done ++ [(k, col k ++ [v])])).
    rewrite <- !app_assoc in IH. cbn in IH. apply IH.
    unfold Dict.keys in *. rewrite map_app. cbn.
    rewrite <- app_assoc. exact Hnd.
Qed.

Lemma chain_append_columns d ds :
  NoDup (Dict.keys d) ->
  chain_append d (columns (Dict.keys d) ds) =
  ret (columns (Dict.keys d) (ds ++ [d])).
Proof.
  intros Hnd.
  pose proof (chain_append_aligned (fun k => column k ds) d [] Hnd) as Happ.
  cbn in Happ. unfold columns, Dict.keys. rewrite !map_map.
  rewrite Happ. f_equal.
  apply map_ext_in. intros p Hp.
  f_equal. rewrite column_app. f_equal.
  symmetry. exact (column_entry d p Hnd Hp).
Qed.

(** Lines 256-257 when the sample has a key the chain lacks. *)
Lemma chain_append_missing (k : string) d tc :
  In k (Dict.keys d) -> ~ In k (Dict.keys tc) ->
  exists k', In k' (Dict.keys d) /\ ~ In k' (Dict.keys tc) /\
             chain_append d tc = raise (KeyError k').
Proof.
  revert tc. induction d as [| [k0 v0] d IH]; intros tc Hin Hn.
  - destruct Hin.
  - cbn. destruct (Dict.get k0 tc) as [l |] eqn:Hget.
    + assert (Hk0 : In k0 (Dict.keys tc)).
      { destruct (in_dec string_dec k0 (Dict.keys tc)) as [Hy | Hno];
          [exact Hy |].
        rewrite (proj2 (get_None_keys k0 tc) Hno) in Hget. discriminate Hget. }
      destruct Hin as [Heq | Hin].
      { cbn in Heq. subst k0. exfalso. exact (Hn Hk0). }
      destruct (IH (Dict.set k0 (l ++ [v0]) tc) Hin) as (k' & Hk' & Hn' & Hr).
      { rewrite (keys_set_present k0 _ tc Hk0). exact Hn. }
      exists k'. split; [right; exact Hk' |].
      split; [| exact Hr].
      rewrite (keys_set_present k0 _ tc Hk0) in Hn'. exact Hn'.
    + exists k0. split; [left; reflexivity |].
      split; [exact (proj1 (get_None_keys k0 tc) Hget) | reflexivity].
Qed.

(** Lines 252-257 over samples that all reconstruct to dictionaries with
    the keys [ks]. *)
Lemma samples_loop_columns self (rest : list (list V)) ds ds0 ks :
  NoDup ks ->
  Forall2 (fun c d =>
             backward_loop (sample_transforms self) (add_name self c) = ret d)
          rest ds ->
  Forall (fun d => Dict.keys d = ks) ds ->
  samples_loop self rest (columns ks ds0) = ret (columns ks (ds0 ++ ds)).
Proof.
  intros Hnd Hall. revert ds0.
  induction Hall as [| c d rest ds Hc _ IH]; intros ds0 Hkeys; cbn.
  - rewrite app_nil_r. reflexivity.
  - inversion Hkeys as [| d' ds' Hd Hkeys']; subst.
    rewrite Hc. cbn.
    rewrite chain_append_columns by exact Hnd. cbn.
    rewrite IH by exact Hkeys'.
    rewrite <- app_assoc. reflexivity.
Qed.

(** X8.  With sample transforms, when every sample of a non-empty chain
    reconstructs to a dictionary with the same distinct keys,
    [get_samples] returns one entry per key, in the order of the keys,
    holding that key's values sample by sample: one value per sample. *)
Theorem get_samples_columns self (chains : list (list V)) ds ks :
  sample_transforms self <> [] ->
  chains <> [] ->
  NoDup ks ->
  Forall2 (fun c d =>
             backward_loop (sample_transforms self) (add_name self c) = ret d)
          chains ds ->
  Forall (fun d => Dict.keys d = ks) ds ->
  get_samples self chains = ret (columns ks ds) /\
  (forall k, In k ks -> length (column k ds) = length chains).
Proof.
  intros Hsts Hch Hnd Hall Hkeys. split.
  - unfold get_samples.
    destruct (sample_transforms self) as [| t0 sts] eqn:Ests;
      [exfalso; apply Hsts; reflexivity |].
    destruct Hall as [| c0 d0 rest ds Hc0 Hrest];
      [exfalso; apply Hch; reflexivity |].
    inversion Hkeys as [| d' ds' Hd0 Hkeys']; subst.
    rewrite Hc0. cbn.
    rewrite chain_start_columns by exact Hnd.
    rewrite <- Ests in Hrest.
    exact (samples_loop_columns self rest ds [d0] (Dict.keys d0)
             Hnd Hrest Hkeys').
  - intros k Hk. rewrite (Forall2_length Hall).
    apply column_length.
    apply Forall_forall. intros d Hd.
    rewrite (proj1 (Forall_forall _ _) Hkeys d Hd). exact Hk.
Qed.

(** X9.  Without sample transforms [get_samples] hands the whole chain
    to [add_name]: with distinct parameter names the k-th name is paired
    with the k-th sample, a row of the chain, and not with the k-th
    parameter's values; names beyond the number of samples are absent. *)
Theorem get_samples_without_transforms self (chains : list (list V)) :
  sample_transforms self = [] ->
  NoDup (parameter_names self) ->
  get_samples self chains = ret (combine (parameter_names self) chains) /\
  length (combine (parameter_names self) chains) <= length chains.
Proof.
  intros Hsts Hnd. unfold get_samples. rewrite Hsts.
  rewrite (add_name_zip self chains Hnd).
  split; [reflexivity |]. rewrite length_combine. lia.
Qed.

(** X10.  On an empty chain [get_samples] raises [IndexError] when there
    are sample transforms (line 247 reads [chains[0]]) and returns the
    empty dictionary when there are none. *)
Theorem get_samples_empty_chain self :
  get_samples self [] =
  match sample_transforms self with
  | [] => ret []
  | _ :: _ => raise IndexError
  end.
Proof.
  unfold get_samples, add_name.
  destruct (sample_transforms self); [| reflexivity].
  rewrite combine_nil. reflexivity.
Qed.

(** X11.  When a sample after the first reconstructs to a dictionary
    with a key the first sample's reconstruction did not have,
    [get_samples] raises [KeyError] for such a key (line 257 appends to
    a list that was never started). *)
Theorem get_samples_key_error self (c0 c1 : list V)
    (rest : list (list V)) (d0 d1 : NamedVector V) (k : string) :
  sample_transforms self <> [] ->
  backward_loop (sample_transforms self) (add_name self c0) = ret d0 ->
  backward_loop (sample_transforms self) (add_name self c1) = ret d1 ->
  In k (Dict.keys d1) ->
  ~ In k (Dict.keys d0) ->
  exists k',
    In k' (Dict.keys d1) /\ ~ In k' (Dict.keys d0) /\
    get_samples self (c0 :: c1 :: rest) = raise (KeyError k').
Proof.
  intros Hsts H0 H1 Hin Hn. unfold get_samples.
  destruct (sample_transforms self) as [| t0 sts] eqn:Ests;
    [exfalso; apply Hsts; reflexivity |].
  rewrite H0. cbn. rewrite Ests, H1. cbn.
  destruct (chain_append_missing k d1 (chain_start d0 []) Hin)
    as (k' & Hk' & Hn' & Hr).
  { rewrite In_keys_chain_start. intros [[] | Hd0]. exact (Hn Hd0). }
  exists k'. split; [exact Hk' |]. split.
  - intros Hd0. apply Hn'. rewrite In_keys_chain_start. right. exact Hd0.
  - rewrite Hr. reflexivity.
Qed.

End GetSamples.

(** ** Loops over walkers and rows *)

Lemma mapM_ret_iff {A B : Type} (f : A -> result B) (l : list A)
    (ys : list B) :
  mapM f l = ret ys <-> Forall2 (fun a b => f a = ret b) l ys.
Proof.
  revert ys. induction l as [| a l IH]; intros ys; cbn.
  - split.
    + intros [= <-]. constructor.
    + intros Hall. inversion Hall. reflexivity.
  - destruct (f a) as [e | b] eqn:Hfa; cbn.
    + split; [discriminate |].
      intros Hall. inversion Hall as [| a' b' l' ys' Hab _]; subst.
      rewrite Hfa in Hab. discriminate Hab.
    + destruct (mapM f l) as [e | bs] eqn:Hrest; cbn.
      * split; [discriminate |].
        intros Hall. inversion Hall as [| a' b' l' ys' _ Hl]; subst.
        apply IH in Hl. discriminate Hl.
      * split.
        -- intros [= <-]. constructor; [exact Hfa |].
           apply IH. reflexivity.
        -- intros Hall. inversion Hall as [| a' b' l' ys' Hab Hl]; subst.
           apply IH in Hl. injection Hl as <-.
           rewrite Hfa in Hab. injection Hab as <-.
           reflexivity.
Qed.

Lemma mapM_raise_at {A B : Type} (f : A -> result B) (l1 l2 : list A)
    (a : A) (bs : list B) (e : exn) :
  mapM f l1 = ret bs -> f a = raise e ->
  mapM f (l1 ++ a :: l2) = raise e.
Proof.
  revert bs. induction l1 as [| a1 l1 IH]; intros bs Hl1 Ha; cbn.
  - rewrite Ha. reflexivity.
  - cbn in Hl1. destruct (f a1) as [e1 | b1]; cbn in Hl1 |- *;
      [discriminate Hl1 |].
    destruct (mapM f l1) as [e2 | bs1]; cbn in Hl1; [discriminate Hl1 |].
    rewrite (IH bs1 eq_refl Ha). reflexivity.
Qed.

Lemma mapM_raise_inv {A B : Type} (f : A -> result B) (l : list A)
    (e : exn) :
  mapM f l = raise e ->
  exists l1 a l2 bs,
    l = l1 ++ a :: l2 /\ mapM f l1 = ret bs /\ f a = raise e.
Proof.
  induction l as [| a l IH]; intros Hm; cbn in Hm.
  - discriminate Hm.
  - destruct (f a) as [e0 | b] eqn:Hfa; cbn in Hm.
    + injection Hm as ->. exists [], a, l, [].
      split; [reflexivity |]. split; [reflexivity | exact Hfa].
    + destruct (mapM f l) as [e1 | bs0] eqn:Hrest; cbn in Hm;
        [| discriminate Hm].
      injection Hm as ->.
      destruct (IH eq_refl) as (l1 & a' & l2 & bs & -> & Hl1 & Ha').
      exists (a :: l1), a', l2, (b :: bs).
      split; [reflexivity |]. split; [| exact Ha'].
      cbn. rewrite Hfa. cbn. rewrite Hl1. reflexivity.
Qed.

Lemma mapM_raise_iff {A B : Type} (f : A -> result B) (l : list A)
    (e : exn) :
  mapM f l = raise e <->
  exists l1 a l2 bs,
    l = l1 ++ a :: l2 /\ mapM f l1 = ret bs /\ f a = raise e.
Proof.
  split.
  - apply mapM_raise_inv.
  - intros (l1 & a & l2 & bs & -> & Hl1 & Ha).
    exact (mapM_raise_at f l1 l2 a bs e Hl1 Ha).
Qed.

Lemma Forall2_bind_split {A B C : Type} (f : A -> result B)
    (g : B -> result C) (l : list A) (out : list C) :
  Forall2 (fun a c => bind (f a) g = ret c) l out <->
  exists mid, Forall2 (fun a b => f a = ret b) l mid /\
              Forall2 (fun b c => g b = ret c) mid out.
Proof.
  split.
  - induction 1 as [| a c l out Hac _ (mid & Hl & Hr)].
    + exists []. split; constructor.
    + destruct (f a) as [e | b] eqn:Hfa; cbn in Hac; [discriminate Hac |].
      exists (b :: mid). split; constructor; assumption.
  - intros (mid & Hl & Hr). revert out Hr.
    induction Hl as [| a b l mid Hab _ IH]; intros out Hr.
    + inversion Hr. constructor.
    + inversion Hr as [| b' c mid' out' Hbc Hrest]; subst.
      constructor; [rewrite Hab; exact Hbc | exact (IH _ Hrest)].
Qed.

Lemma insert_sorted_keys_sorted {A : Type} (k : string) (v : A)
    (d : Dict.t A) :
  keys_sorted d -> keys_sorted (insert_sorted k v d).
Proof.
  unfold keys_sorted. induction d as [| [k' v'] d IH]; intros Hs; cbn.
  - repeat constructor.
  - destruct (String.leb k k') eqn:Hle; cbn.
    + constructor; [exact Hs |]. constructor. exact Hle.
    + cbn in Hs. apply Sorted_inv in Hs. destruct Hs as [Hs Hhd].
      constructor; [exact (IH Hs) |].
      assert (Hk : String.leb k' k = true).
      { destruct (String.leb_total k k') as [Hc | Hc];
          [rewrite Hc in Hle; discriminate Hle | exact Hc]. }
      destruct d as [| [k2 v2] d]; cbn.
      * constructor. exact Hk.
      * destruct (String.leb k k2); cbn; constructor;
          [exact Hk | inversion Hhd; assumption].
Qed.

Lemma tree_rebuild_keys_sorted {A : Type} (d : Dict.t A) :
  keys_sorted (tree_rebuild d).
Proof.
  induction d as [| [k v] d IH]; cbn.
  - constructor.
  - apply insert_sorted_keys_sorted. exact IH.
Qed.

Section Walkers.

Context {V F : Type} `{Scalar F} {Data Key : Type}.

Implicit Types (self : Jim V F Data Key).
Implicit Types (ts : list (BijectiveTransform V F)).
Implicit Types (batch out : list (NamedVector V)).

Lemma sample_forward_loop_iff ts batch out :
  sample_forward_loop ts batch = ret out <->
  Forall2 (fun w w' => forward_seq ts w = ret w') batch out.
Proof.
  revert batch. induction ts as [| t ts IH]; intros batch; cbn.
  - split.
    + intros [= <-]. induction batch; constructor; [reflexivity | assumption].
    + intros Hall. induction Hall as [| w w' batch out Hw _ IHall].
      * reflexivity.
      * injection Hw as <-. injection IHall as <-. reflexivity.
  - rewrite (Forall2_bind_split (vmapped_forward t) (forward_seq ts)). split.
    + destruct (mapM (vmapped_forward t) batch) as [e | mid] eqn:Hmid; cbn;
        [discriminate |].
      intros Hrest. exists mid. split.
      * apply mapM_ret_iff. exact Hmid.
      * apply IH. exact Hrest.
    + intros (mid & Hl & Hr).
      rewrite (proj2 (mapM_ret_iff _ _ _) Hl). cbn. apply IH. exact Hr.
Qed.

Lemma forward_seq_keys_sorted ts (w w' : NamedVector V) :
  ts <> [] -> forward_seq ts w = ret w' -> keys_sorted w'.
Proof.
  revert w. induction ts as [| t ts IH]; intros w Hne Hseq.
  - exfalso. apply Hne. reflexivity.
  - cbn in Hseq. unfold vmapped_forward in Hseq.
    destruct (forward t (tree_rebuild w)) as [e | w1]; cbn in Hseq;
      [discriminate Hseq |].
    destruct ts as [| t2 ts].
    + cbn in Hseq. injection Hseq as <-. apply tree_rebuild_keys_sorted.
    + apply (IH (tree_rebuild w1)); [discriminate | exact Hseq].
Qed.

(** X12.  The initial guess of [Jim.sample] has one row per walker the
    prior drew, and the row is the list of values of that walker's
    dictionary after the [forward] maps of the sample transforms, mapped
    by [jax.vmap], first transform first; it is returned exactly when
    every walker goes through all of them.  With at least one sample
    transform the dictionary has been rebuilt by jax, so that the row
    lists the values by sorted key. *)
Theorem sample_initial_guess_per_walker self (key : Key) (n_chains : nat)
    (rows : list (list V)) :
  (sample_initial_guess self key n_chains = ret rows <->
   exists out,
     Forall2 (fun w w' => forward_seq (sample_transforms self) w = ret w')
             (sample (prior self) key n_chains) out /\
     rows = map Dict.values out) /\
  (sample_initial_guess self key n_chains = ret rows ->
   length rows = length (sample (prior self) key n_chains)) /\
  (forall w w',
     sample_transforms self <> [] ->
     forward_seq (sample_transforms self) w = ret w' ->
     keys_sorted w').
Proof.
  assert (Hiff :
    sample_initial_guess self key n_chains = ret rows <->
    exists out,
      Forall2 (fun w w' => forward_seq (sample_transforms self) w = ret w')
              (sample (prior self) key n_chains) out /\
      rows = map Dict.values out).
  { unfold sample_initial_guess. split.
    - destruct (sample_forward_loop _ _) as [e | out] eqn:Hloop; cbn;
        [discriminate |].
      intros [= <-]. exists out. split; [| reflexivity].
      apply sample_forward_loop_iff. exact Hloop.
    - intros (out & Hall & ->).
      rewrite (proj2 (sample_forward_loop_iff _ _ _) Hall). reflexivity. }
  split; [exact Hiff |]. split.
  - intros Hret. destruct (proj1 Hiff Hret) as (out & Hall & ->).
    rewrite length_map. symmetry. exact (Forall2_length Hall).
  - intros w w' Hne Hseq.
    exact (forward_seq_keys_sorted _ w w' Hne Hseq).
Qed.

(** X13.  The objective [maximize_likelihood] builds, applied to a batch
    of rows, returns one value per row, the negated posterior of that
    row with [None] for the data; it raises exactly when [posterior]
    raises on some row after returning on all rows before it. *)
Theorem negative_posterior_rowwise self (batch : list (list V))
    (ys : list F) (e : exn) :
  (vmap (negative_posterior self) batch = ret ys <->
   Forall2 (fun x y => exists p, posterior self x None = ret p /\ y = fneg p)
           batch ys) /\
  (vmap (negative_posterior self) batch = raise e <->
   exists rows x rest ps,
     batch = rows ++ x :: rest /\
     mapM (fun r => posterior self r None) rows = ret ps /\
     posterior self x None = raise e).
Proof.
  assert (Hone : forall x y,
    negative_posterior self x = ret y <->
    exists p, posterior self x None = ret p /\ y = fneg p).
  { intros x y. unfold negative_posterior.
    destruct (posterior self x None) as [e0 | p]; cbn; split.
    - discriminate.
    - intros (p & Hp & _). discriminate Hp.
    - intros [= <-]. exists p. split; reflexivity.
    - intros (p' & [= <-] & ->). reflexivity. }
  assert (Hraise : forall x,
    negative_posterior self x = raise e <-> posterior self x None = raise e).
  { intros x. unfold negative_posterior.
    destruct (posterior self x None) as [e0 | p]; cbn; split;
      try discriminate; intros Heq; exact Heq. }
  assert (Hrows : forall rows,
    (exists bs, mapM (negative_posterior self) rows = ret bs) <->
    (exists ps, mapM (fun r => posterior self r None) rows = ret ps)).
  { induction rows as [| r rows IH]; cbn.
    - split; intros _; eexists; reflexivity.
    - unfold negative_posterior at 1.
      destruct (posterior self r None) as [e0 | p]; cbn.
      + split; intros (? & Hd); discriminate Hd.
      + destruct (mapM (negative_posterior self) rows) as [e1 | bs];
          destruct (mapM (fun r0 => posterior self r0 None) rows)
            as [e2 | ps]; cbn.
        * split; intros (? & Hd); discriminate Hd.
        * exfalso. destruct (proj2 IH (ex_intro _ ps eq_refl)) as (? & Hd).
          discriminate Hd.
        * exfalso. destruct (proj1 IH (ex_intro _ bs eq_refl)) as (? & Hd).
          discriminate Hd.
        * split; intros _; eexists; reflexivity. }
  unfold vmap. split.
  - rewrite mapM_ret_iff. split; intros Hall.
    + induction Hall as [| x y batch ys Hxy _ IH]; constructor;
        [apply Hone; exact Hxy | exact IH].
    + induction Hall as [| x y batch ys Hxy _ IH]; constructor;
        [apply Hone; exact Hxy | exact IH].
  - rewrite mapM_raise_iff. split.
    + intros (rows & x & rest & bs & -> & Hrows_ok & Hx).
      destruct (proj1 (Hrows rows) (ex_intro _ bs Hrows_ok)) as (ps & Hps).
      exists rows, x, rest, ps.
      split; [reflexivity |]. split; [exact Hps | apply Hraise; exact Hx].
    + intros (rows & x & rest & ps & -> & Hps & Hx).
      destruct (proj2 (Hrows rows) (ex_intro _ ps Hps)) as (bs & Hbs).
      exists rows, x, rest, bs.
      split; [reflexivity |]. split; [exact Hbs | apply Hraise; exact Hx].
Qed.

End Walkers.

(** ** Outcomes of [Jim.maximize_likelihood] *)

Section MaximizeOutcome.

Context {V F : Type} `{Scalar F} {Data Key : Type}.
Context {Bounds Optimizer Fit Rest : Type}.

Variable PRNGKey : Z -> Key.
Variable EvolutionaryOptimizer : nat -> Optimizer.
Variable optimize :
  Optimizer -> (list (list V) -> result (list F)) -> Bounds -> nat ->
  result Optimizer.
Variable get_result : Optimizer -> Fit * Rest.
Variable str_value : string -> V.

(** X14.  [maximize_likelihood] returns exactly when the trial
    evaluation of line 131 and then the optimizer return.  It raises the
    exception of the trial evaluation, whatever the optimizer would do,
    or else the optimizer's; nothing is caught. *)
Theorem maximize_likelihood_outcome (self : Jim V F Data Key)
    (bounds : Bounds) (set_nwalkers n_loops : nat) (seed : Z)
    (best_fit : Fit) (e : exn) :
  let trial :=
    vmap (negative_posterior self)
         (map (fun w => map str_value (Dict.keys (tree_rebuild w)))
              (sample (prior self) (PRNGKey seed) set_nwalkers)) in
  let run :=
    optimize (EvolutionaryOptimizer (n_dim (prior self)))
             (vmap (negative_posterior self)) bounds n_loops in
  let outcome :=
    maximize_likelihood PRNGKey EvolutionaryOptimizer optimize get_result
      str_value self bounds set_nwalkers n_loops seed in
  (outcome = ret best_fit <->
   exists values optimizer',
     trial = ret values /\ run = ret optimizer' /\
     best_fit = fst (get_result optimizer')) /\
  (outcome = raise e <->
   trial = raise e \/ exists values, trial = ret values /\ run = raise e).
Proof.
  cbv zeta. unfold maximize_likelihood.
  destruct (vmap (negative_posterior self) _) as [e0 | values]; cbn.
  - split; split.
    + discriminate.
    + intros (values & optimizer' & Hd & _). discriminate Hd.
    + intros [= ->]. left. reflexivity.
    + intros [[= ->] | (values & Hd & _)]; [reflexivity | discriminate Hd].
  - destruct (optimize _ _ _ _) as [e1 | optimizer']; cbn.
    + split; split.
      * discriminate.
      * intros (values' & optimizer'' & _ & Hd & _). discriminate Hd.
      * intros [= ->]. right. exists values. split; reflexivity.
      * intros [Hd | (values' & _ & [= ->])];
          [discriminate Hd | reflexivity].
    + split; split.
      * intros [= <-]. exists values, optimizer'. repeat split.
      * intros (values' & optimizer'' & _ & [= <-] & ->). reflexivity.
      * discriminate.
      * intros [Hd | (values' & _ & Hd)]; discriminate Hd.
Qed.

End MaximizeOutcome.

(** ** The number of parameter names *)

Section ParameterCount.

Context {V F : Type} {Data Key : Type}.

Lemma propagate_loop_app (s1 s2 : list (BijectiveTransform V F))
    (names : list string) :
  propagate_loop (s1 ++ s2) names = propagate_loop s2 (propagate_loop s1 names).
Proof.
  revert names. induction s1 as [| t s1 IH]; intros names; cbn.
  - reflexivity.
  - apply IH.
Qed.

(** X15.  When every sample transform's propagation keeps the number of
    names, the Jim has as many parameter names as its prior: the width
    the chains are reshaped to in [get_samples] is the prior's number of
    names.  The transforms are stored as given. *)
Theorem Jim_init_parameter_count (lik : LikelihoodBase V F Data)
    (pr : Prior V F Key) (sts : list (BijectiveTransform V F))
    (lts : list (NtoMTransform V)) :
  Forall (fun t => forall names,
            length (propagate_name t names) = length names) sts ->
  length (parameter_names (Jim_init lik pr sts lts)) =
    length (prior_parameter_names pr) /\
  sample_transforms (Jim_init lik pr sts lts) = sts /\
  likelihood_transforms (Jim_init lik pr sts lts) = lts.
Proof.
  intros Hall. split; [| split; reflexivity].
  rewrite Jim_init_parameter_names.
  generalize (prior_parameter_names pr).
  induction Hall as [| t sts Ht _ IH]; intros names; cbn.
  - reflexivity.
  - rewrite IH. apply Ht.
Qed.

(** X16.  Building a Jim with the sample transforms [s1 ++ s2] gives the
    parameter names of the Jim built with [s1], propagated through
    [s2]. *)
Theorem Jim_init_names_compose (lik : LikelihoodBase V F Data)
    (pr : Prior V F Key) (s1 s2 : list (BijectiveTransform V F))
    (lts : list (NtoMTransform V)) :
  parameter_names (Jim_init lik pr (s1 ++ s2) lts) =
  propagate_loop s2 (parameter_names (Jim_init lik pr s1 lts)).
Proof.
  rewrite !Jim_init_parameter_names, <- !propagate_loop_fold.
  apply propagate_loop_app.
Qed.

End ParameterCount.

(** ** The further properties at concrete inputs *)

Lemma NoDup_x_w_offset : NoDup ["x"; "w_offset"].
Proof.
  repeat constructor; cbn; intros Hin;
    repeat (destruct Hin as [Hin | Hin]; [discriminate Hin |]); exact Hin.
Qed.

Lemma NoDup_x_w : NoDup ["x"; "w"].
Proof.
  repeat constructor; cbn; intros Hin;
    repeat (destruct Hin as [Hin | Hin]; [discriminate Hin |]); exact Hin.
Qed.

Lemma NoDup_x : NoDup ["x"].
Proof. repeat constructor. intros []. Qed.

Lemma add_name_is_zip_witness :
  add_name jim_two [1%Z; 7%Z] = [("x", 1%Z); ("w_offset", 7%Z)] /\
  Dict.keys (add_name jim_two [1%Z; 7%Z]) = ["x"; "w_offset"] /\
  Dict.values (add_name jim_two [1%Z; 7%Z]) = [1%Z; 7%Z].
Proof.
  exact (add_name_is_zip jim_two [1%Z; 7%Z] NoDup_x_w_offset).
Defined.


Lemma add_name_truncates_witness :
  Dict.get "w_offset" (add_name jim_two [1%Z]) = None /\
  length (add_name jim_two [1%Z]) <= 1.
Proof.
  apply (add_name_truncates jim_two [1%Z] "w_offset").
  cbn. intros [Hin | []]. discriminate Hin.
Defined.

Lemma backward_loop_is_inverse_loop_witness :
  backward_loop [scale_x; offset_x] [("x", 6%Z)] =
  ('(z, _) <- inverse_loop [scale_x; offset_x] [("x", 6%Z)] 0%Z ;; ret z).
Proof.
  apply (backward_loop_is_inverse_loop [scale_x; offset_x] [("x", 6%Z)] 0%Z).
  repeat constructor.
Defined.

Lemma get_samples_columns_witness :
  get_samples jim_same [[4%Z]; [6%Z]] = ret [("x", [0%Z; 1%Z])] /\
  (forall k, In k ["x"] ->
     length (column k [[("x", 0%Z)]; [("x", 1%Z)]]) = 2).
Proof.
  apply (get_samples_columns jim_same [[4%Z]; [6%Z]]
           [[("x", 0%Z)]; [("x", 1%Z)]] ["x"]).
  - discriminate.
  - discriminate.
  - exact NoDup_x.
  - repeat constructor.
  - repeat constructor.
Defined.

Lemma get_samples_without_transforms_witness :
  get_samples (Jim_init likelihood_x prior_xw [] [])
              [[4%Z; 5%Z]; [6%Z; 7%Z]; [8%Z; 9%Z]]
    = ret [("x", [4%Z; 5%Z]); ("w", [6%Z; 7%Z])] /\
  2 <= 3.
Proof.
  exact (get_samples_without_transforms
           (Jim_init likelihood_x prior_xw [] [])
           [[4%Z; 5%Z]; [6%Z; 7%Z]; [8%Z; 9%Z]] eq_refl NoDup_x_w).
Defined.

Lemma get_samples_key_error_witness :
  exists k',
    In k' ["neg"] /\ ~ In k' ["pos"] /\
    get_samples jim_sign [[1%Z]; [(-2)%Z]] = raise (KeyError k').
Proof.
  apply (get_samples_key_error jim_sign [1%Z] [(-2)%Z] []
           [("pos", 1%Z)] [("neg", 2%Z)] "neg").
  - discriminate.
  - reflexivity.
  - reflexivity.
  - left. reflexivity.
  - intros [Hin | []]. discriminate Hin.
Defined.

(** The prior draws x = 1, w = 0 and [w] is sampled as [w_offset]
    = w + 5: the row of the initial guess lists [w_offset] before [x],
    the parameter names list [x] first. *)
Example sample_initial_guess_sorted_columns :
  parameter_names jim_two = ["x"; "w_offset"] /\
  sample_initial_guess jim_two 0%Z 1 = ret [[5%Z; 1%Z]].
Proof. split; reflexivity. Qed.

Lemma Jim_init_parameter_count_witness :
  length (parameter_names jim_chain) = 1 /\
  sample_transforms jim_chain = [offset_x_y; scale_y_z] /\
  likelihood_transforms jim_chain = [].
Proof.
  apply (Jim_init_parameter_count likelihood_x prior_x
           [offset_x_y; scale_y_z] []).
  repeat constructor; intros names; apply length_map.
Defined.
